(** * kratos-redis: a service registry over a key-value store

    Shallow embedding of [registry/registry.go] and [registry/watcher.go].

    The Go code talks to two external libraries: the redis client and the
    JSON codec.  Both are taken as parameters (records of operations); the
    registry code itself is written once, over any client and any codec, as
    state-passing functions on a [World] that holds the store, the
    registry's ticker and context, the goroutines it has started and the
    trace of every call it has issued.  A blocking [select] takes the
    channel it wakes up on as an argument, and the one unbounded loop, in
    [services], takes a bound on its rounds. *)

From Stdlib Require Import String Ascii List ZArith NArith Bool Lia.
Import ListNotations.

Local Open Scope string_scope.
Local Open Scope Z_scope.

(** ** time.Duration: a signed 64-bit count of nanoseconds *)

Definition Duration := Z.

Definition wrap64 (z : Z) : Z := (z + 2 ^ 63) mod 2 ^ 64 - 2 ^ 63.

Definition Nanosecond : Duration := 1.
Definition Second : Duration := 1000000000 * Nanosecond.
Definition Minute : Duration := 60 * Second.

Definition dur_add (a b : Duration) : Duration := wrap64 (a + b).
Definition dur_mul (a b : Duration) : Duration := wrap64 (a * b).

(** ** Constants of registry.go *)

(** [fmt.Sprintf("%s/%s/%s", ns, name, id)] *)
Definition keyFormat (ns name id : string) : string :=
  ns ++ "/" ++ name ++ "/" ++ id.

(** [fmt.Sprintf("%s/%s", ns, name)] *)
Definition watcherFormat (ns name : string) : string :=
  ns ++ "/" ++ name.

Definition defaultScan : Z := 20.
Definition defaultTTL : Duration := Minute.

(** ** Data *)

(** Modelled from the spec: [registry.ServiceInstance], a type of the host
    framework: "identifier (ID, unique within a service name), Name
    (service name), Version, a list of endpoint addresses, and a
    string-to-string metadata map". *)
Record ServiceInstance := mkInstance {
  ID : string;
  Name : string;
  Version : string;
  Metadata : list (string * string);
  Endpoints : list string
}.

(** Go's [error] values, by the class the adapter can meet. *)
Inductive error :=
| StoreError (msg : string)
| SerializationError (msg : string)
| ContextError (msg : string).

Inductive result (A : Type) :=
| Ok (a : A)
| Err (e : error).
Arguments Ok {A} a.
Arguments Err {A} e.

(** An element of the [[]interface{}] that MGet returns. *)
Inductive reply :=
| ReplyString (s : string)
| ReplyNil
| ReplyInt (n : Z).

(** The JSON library, as the two functions the adapter calls:
    [jsoniter.MarshalToString] and [jsoniter.UnmarshalFromString]. *)
Record Codec := mkCodec {
  MarshalToString : ServiceInstance -> result string;
  UnmarshalFromString : string -> result ServiceInstance
}.

(** The redis client, as the six commands the adapter calls, each a
    function of the store's state: what a command answers and what it
    does to the store is the client's business.  A command that returns
    only [.Err()] answers an optional error. *)
Record Client (St : Type) := mkClient {
  cTTL : string -> St -> result Duration * St;
  cExpire : string -> Duration -> St -> option error * St;
  cSet : string -> string -> Duration -> St -> option error * St;
  cDel : string -> St -> option error * St;
  cScan : N -> string -> Z -> St -> result (list string * N) * St;
  cMGet : list string -> St -> result (list reply) * St
}.
Arguments cTTL {St} _ _ _.
Arguments cExpire {St} _ _ _ _.
Arguments cSet {St} _ _ _ _ _.
Arguments cDel {St} _ _ _.
Arguments cScan {St} _ _ _ _ _.
Arguments cMGet {St} _ _ _.

(** The closure of the goroutine that [Register] starts. *)
Record Renewal := mkRenewal {
  rn_key : string;
  rn_value : string;
  rn_ttl : Duration
}.

(** What the adapter does to the outside, in order. *)
Inductive Event :=
| EvTTL (key : string) (r : result Duration)
| EvExpire (key : string) (ttl : Duration) (err : option error)
| EvSet (key value : string) (ttl : Duration) (err : option error)
| EvDel (key : string) (err : option error)
| EvScan (cursor : N) (pattern : string) (count : Z)
         (r : result (list string * N))
| EvMGet (keys : list string) (r : result (list reply))
| EvTickerStop
| EvCancel
| EvGo (task : Renewal).

Record options := mkOptions {
  namespace : string;
  ttl : Duration;
  watcherTtl : Duration
}.

(** [type Option func(o *options)].  The context option is left out:
    contexts are not values here, their cancellation is a flag of the
    [World]. *)
Definition Option := options -> options.

Definition Namespace (ns : string) : Option :=
  fun o => {| namespace := ns; ttl := ttl o; watcherTtl := watcherTtl o |}.

Definition TTL (d : Duration) : Option :=
  fun o => {| namespace := namespace o; ttl := d; watcherTtl := watcherTtl o |}.

Definition WatcherTTL (d : Duration) : Option :=
  fun o => {| namespace := namespace o; ttl := ttl o; watcherTtl := d |}.

(** The immutable part of a [*Registry]; its ticker, its context and the
    client's store are mutable and live in the [World]. *)
Record Registry := mkRegistry {
  opts : options
}.

(** What a call that can panic does. *)
Inductive may_panic (A : Type) :=
| Returns (a : A)
| Panics.
Arguments Returns {A} a.
Arguments Panics {A}.

(** The options [New] ends with: the defaults, then each option in
    turn. *)
Definition apply_options (os : list Option) : options :=
  fold_left (fun o f => f o) os
    {| namespace := "/microservices"; ttl := defaultTTL;
       watcherTtl := defaultTTL |}.

(** [New(client, opts...)].  It builds [time.NewTicker(options.ttl)],
    which panics unless the duration is positive. *)
Definition New (os : list Option) : may_panic Registry :=
  let o := apply_options os in
  if 0 <? ttl o then Returns {| opts := o |} else Panics.

(** The two wake-up sources of a [select]: the context's Done channel (with
    the cause [ctx.Err()] reports), and the ticker's channel, which delivers
    a tick or, closed, delivers [ok = false]. *)
Inductive Wake :=
| WakeDone (cause : error)
| WakeTick
| WakeClosed.

Section Adapter.

Context {St : Type}.
Variable client : Client St.
Variable codec : Codec.

Record World := mkWorld {
  store : St;
  trace : list Event;
  ticker_stopped : bool;
  ctx_cancelled : bool;
  tasks : list Renewal
}.

Definition init_world (s : St) : World :=
  {| store := s; trace := []; ticker_stopped := false;
     ctx_cancelled := false; tasks := [] |}.

Definition emit (e : Event) (s : St) (w : World) : World :=
  {| store := s; trace := trace w ++ [e];
     ticker_stopped := ticker_stopped w;
     ctx_cancelled := ctx_cancelled w;
     tasks := tasks w |}.

(** *** The client's commands, traced *)

Definition doTTL (key : string) (w : World) : result Duration * World :=
  let (r, s) := cTTL client key (store w) in (r, emit (EvTTL key r) s w).

Definition doExpire (key : string) (d : Duration) (w : World)
  : option error * World :=
  let (r, s) := cExpire client key d (store w) in
  (r, emit (EvExpire key d r) s w).

Definition doSet (key value : string) (d : Duration) (w : World)
  : option error * World :=
  let (r, s) := cSet client key value d (store w) in
  (r, emit (EvSet key value d r) s w).

Definition doDel (key : string) (w : World) : option error * World :=
  let (r, s) := cDel client key (store w) in (r, emit (EvDel key r) s w).

Definition doScan (cursor : N) (pattern : string) (count : Z) (w : World)
  : result (list string * N) * World :=
  let (r, s) := cScan client cursor pattern count (store w) in
  (r, emit (EvScan cursor pattern count r) s w).

Definition doMGet (keys : list string) (w : World)
  : result (list reply) * World :=
  let (r, s) := cMGet client keys (store w) in
  (r, emit (EvMGet keys r) s w).

(** *** registry.go *)

(** [(r *Registry) register]: the renew-or-write rule. *)
Definition register (key value : string) (ttl : Duration) (w : World)
  : option error * World :=
  let (res, w1) := doTTL key w in
  match res with
  | Err err => (Some err, w1)
  | Ok res =>
      let ttl := dur_add ttl (dur_mul 2 Second) in
      if 1 <? res then doExpire key ttl w1
      else doSet key value ttl w1
  end.

(** [go func() { ... }()] *)
Definition spawn (t : Renewal) (w : World) : World :=
  {| store := store w; trace := trace w ++ [EvGo t];
     ticker_stopped := ticker_stopped w;
     ctx_cancelled := ctx_cancelled w;
     tasks := tasks w ++ [t] |}.

(** [(r *Registry) Register] *)
Definition Register (r : Registry) (service : ServiceInstance) (w : World)
  : option error * World :=
  let key := keyFormat (namespace (opts r)) (Name service) (ID service) in
  match MarshalToString codec service with
  | Err err => (Some err, w)
  | Ok value =>
      let (err, w1) := register key value (ttl (opts r)) w in
      match err with
      | Some err => (Some err, w1)
      | None =>
          (None, spawn {| rn_key := key; rn_value := value;
                          rn_ttl := ttl (opts r) |} w1)
      end
  end.

(** One pass through the [select] of the goroutine that [Register]
    started: [true] when the goroutine goes round again, [false] when it
    returns.  The error of [register] is dropped, as in the source. *)
Definition renewal_step (t : Renewal) (wk : Wake) (w : World)
  : bool * World :=
  match wk with
  | WakeDone _ => (false, w)
  | WakeClosed => (false, w)
  | WakeTick => (true, snd (register (rn_key t) (rn_value t) (rn_ttl t) w))
  end.

(** [(r *Registry) Deregister] *)
Definition Deregister (r : Registry) (service : ServiceInstance) (w : World)
  : option error * World :=
  let w1 := {| store := store w; trace := trace w ++ [EvTickerStop];
               ticker_stopped := true;
               ctx_cancelled := ctx_cancelled w;
               tasks := tasks w |} in
  let w2 := {| store := store w1; trace := trace w1 ++ [EvCancel];
               ticker_stopped := ticker_stopped w1;
               ctx_cancelled := true;
               tasks := tasks w1 |} in
  let key := keyFormat (namespace (opts r)) (Name service) (ID service) in
  doDel key w2.

(** The inner [for _, v := range res] of [services]: only strings are
    decoded, anything else is passed over. *)
Fixpoint decode_values (res : list reply) (items : list ServiceInstance)
  : result (list ServiceInstance) :=
  match res with
  | [] => Ok items
  | ReplyString str :: rest =>
      match UnmarshalFromString codec str with
      | Err err => Err err
      | Ok si => decode_values rest (items ++ [si])
      end
  | _ :: rest => decode_values rest items
  end.

(** The outer [for] of [services]; [fuel] bounds the number of rounds
    and [None] means the bound was reached.  A Go result
    [(items, err)] is a pair of options: [None] for a nil slice, [None]
    for a nil error. *)
Definition GoResult : Type :=
  option (list ServiceInstance) * option error.

Fixpoint services_loop (fuel : nat) (key : string) (cursor : N)
    (items : list ServiceInstance) (w : World)
  : option (GoResult * World) :=
  match fuel with
  | O => None
  | S fuel' =>
      let (r, w1) := doScan cursor key defaultScan w in
      match r with
      | Err err => Some ((None, Some err), w1)
      | Ok (keys, cursor') =>
          if (length keys =? 0)%nat then Some ((Some items, None), w1)
          else
            let (r2, w2) := doMGet keys w1 in
            match r2 with
            | Err err => Some ((None, Some err), w2)
            | Ok res =>
                match decode_values res items with
                | Err err => Some ((None, Some err), w2)
                | Ok items' =>
                    if (cursor' =? 0)%N then Some ((Some items', None), w2)
                    else services_loop fuel' key cursor' items' w2
                end
            end
      end
  end.

(** [services(ctx, client, key)] *)
Definition services (fuel : nat) (key : string) (w : World)
  : option (GoResult * World) :=
  let key := key ++ "*" in
  services_loop fuel key 0%N [] w.

(** [(r *Registry) GetService] *)
Definition GetService (fuel : nat) (r : Registry) (serviceName : string)
    (w : World) : option (GoResult * World) :=
  services fuel serviceName w.

(** *** watcher.go *)

(** A [*watcher]: its key and poll period never change; whether its own
    ticker is stopped and its own context cancelled does. *)
Record watcher := mkWatcher {
  key : string;
  period : Duration;
  stopped : bool;
  cancelled : bool
}.

Definition newWatcher (key : string) (ttl : Duration) : watcher :=
  {| key := key; period := ttl; stopped := false; cancelled := false |}.

(** [(r *Registry) Watch] *)
Definition Watch (r : Registry) (serviceName : string)
  : watcher * option error :=
  let key := watcherFormat (namespace (opts r)) serviceName in
  (newWatcher key (watcherTtl (opts r)), None).

(** [(w *watcher) Next], once its [select] has woken up on [wk].  A
    closed ticker channel is received from like a tick. *)
Definition Next (fuel : nat) (wt : watcher) (wk : Wake) (w : World)
  : option (GoResult * World) :=
  match wk with
  | WakeDone cause => Some ((None, Some cause), w)
  | WakeTick | WakeClosed => services fuel (key wt) w
  end.

(** [(w *watcher) Stop] *)
Definition Stop (wt : watcher) : watcher * option error :=
  ({| key := key wt; period := period wt;
      stopped := true; cancelled := true |}, None).

End Adapter.

Arguments World St : clear implicits.

(** ** A reference store *)

(** A record of the store: key, value and, when it has one, the instant
    it expires. *)
Record entry := mkEntry {
  e_key : string;
  e_val : string;
  e_exp : option Z
}.

(** Modelled from the spec: the store, an external collaborator (the
    redis server behind the go-redis client is not part of this
    repository), by its capability contract: "Set(key, value, ttl)",
    "MultiGet(keys...) -> values (missing keys map to an absent marker)",
    "TTL(key) -> remaining duration", "Expire(key, ttl)", "Delete(key)",
    "Scan(cursor, pattern, count) -> (matchedKeys, nextCursor)" with zero
    as the start and complete cursor.  It is an ordered list of entries
    with deadlines on a clock in nanoseconds.  A pattern is matched
    against the whole key and only its star is special, which is all the
    contract says of patterns; the other metacharacters of redis globs
    are not modelled.  TTL answers -2 for a key that is absent and -1 for
    a key without a deadline, the way go-redis reports them.  A store can
    be told to fail its next commands ([faults]), which is how transport
    errors arise. *)
Record MemStore := mkMem {
  now : Z;
  entries : list entry;
  faults : list (option error)
}.

Definition live (t : Z) (e : entry) : bool :=
  match e_exp e with
  | None => true
  | Some d => t <? d
  end.

Fixpoint find_entry (t : Z) (k : string) (es : list entry) : option entry :=
  match es with
  | [] => None
  | e :: es' =>
      if (e_key e =? k)%string && live t e then Some e
      else find_entry t k es'
  end.

Fixpoint any_suffix (f : string -> bool) (s : string) : bool :=
  f s || match s with
         | EmptyString => false
         | String _ s' => any_suffix f s'
         end.

Fixpoint glob_match (p s : string) : bool :=
  match p with
  | EmptyString =>
      match s with
      | EmptyString => true
      | String _ _ => false
      end
  | String c p' =>
      if (c =? "*")%char then any_suffix (glob_match p') s
      else
        match s with
        | EmptyString => false
        | String d s' => (c =? d)%char && glob_match p' s'
        end
  end.

(** A live entry whose key fits the pattern. *)
Definition matching (t : Z) (pat : string) (e : entry) : bool :=
  live t e && glob_match pat (e_key e).

(** One Scan: walk the entries from position [pos], keep the keys of the
    live entries that match, at most [count] of them; the next cursor is
    the position to resume at, or zero once the end is reached. *)
Fixpoint scan_walk (t : Z) (pat : string) (es : list entry) (pos count : nat)
  : list string * nat :=
  match es with
  | [] => ([], O)
  | e :: es' =>
      match count with
      | O => ([], pos)
      | S c =>
          if matching t pat e then
            let (ks, nxt) := scan_walk t pat es' (S pos) c in
            (e_key e :: ks, nxt)
          else scan_walk t pat es' (S pos) count
      end
  end.

Definition take_fault (m : MemStore) : option error * MemStore :=
  match faults m with
  | [] => (None, m)
  | f :: fs => (f, {| now := now m; entries := entries m; faults := fs |})
  end.

Definition set_entries (m : MemStore) (es : list entry) : MemStore :=
  {| now := now m; entries := es; faults := faults m |}.

Definition mTTL (k : string) (m : MemStore) : result Duration * MemStore :=
  let (f, m1) := take_fault m in
  match f with
  | Some err => (Err err, m1)
  | None =>
      match find_entry (now m1) k (entries m1) with
      | None => (Ok (-2), m1)
      | Some e =>
          match e_exp e with
          | None => (Ok (-1), m1)
          | Some d => (Ok (d - now m1), m1)
          end
      end
  end.

Definition mExpire (k : string) (d : Duration) (m : MemStore)
  : option error * MemStore :=
  let (f, m1) := take_fault m in
  match f with
  | Some err => (Some err, m1)
  | None =>
      (None,
       set_entries m1
         (map (fun e =>
                 if (e_key e =? k)%string && live (now m1) e
                 then {| e_key := e_key e; e_val := e_val e;
                         e_exp := Some (now m1 + d) |}
                 else e)
              (entries m1)))
  end.

Fixpoint put_entry (n : entry) (es : list entry) : list entry :=
  match es with
  | [] => [n]
  | e :: es' =>
      if (e_key e =? e_key n)%string then n :: es'
      else e :: put_entry n es'
  end.

Definition mSet (k v : string) (d : Duration) (m : MemStore)
  : option error * MemStore :=
  let (f, m1) := take_fault m in
  match f with
  | Some err => (Some err, m1)
  | None =>
      let n := {| e_key := k; e_val := v;
                  e_exp := if 0 <? d then Some (now m1 + d) else None |} in
      (None, set_entries m1 (put_entry n (entries m1)))
  end.

Definition mDel (k : string) (m : MemStore) : option error * MemStore :=
  let (f, m1) := take_fault m in
  match f with
  | Some err => (Some err, m1)
  | None =>
      (None,
       set_entries m1
         (filter (fun e => negb (e_key e =? k)%string) (entries m1)))
  end.

Definition mScan (cursor : N) (pat : string) (count : Z) (m : MemStore)
  : result (list string * N) * MemStore :=
  let (f, m1) := take_fault m in
  match f with
  | Some err => (Err err, m1)
  | None =>
      let pos := N.to_nat cursor in
      let (ks, nxt) :=
        scan_walk (now m1) pat (skipn pos (entries m1)) pos (Z.to_nat count) in
      (Ok (ks, N.of_nat nxt), m1)
  end.

Definition lookup_reply (t : Z) (es : list entry) (k : string) : reply :=
  match find_entry t k es with
  | Some e => ReplyString (e_val e)
  | None => ReplyNil
  end.

Definition mMGet (ks : list string) (m : MemStore)
  : result (list reply) * MemStore :=
  let (f, m1) := take_fault m in
  match f with
  | Some err => (Err err, m1)
  | None => (Ok (map (lookup_reply (now m1) (entries m1)) ks), m1)
  end.

Definition mem_client : Client MemStore :=
  {| cTTL := mTTL; cExpire := mExpire; cSet := mSet; cDel := mDel;
     cScan := mScan; cMGet := mMGet |}.

Definition empty_store : MemStore :=
  {| now := 0; entries := []; faults := [] |}.

(** Time passing at the store. *)
Definition advance (dt : Z) (m : MemStore) : MemStore :=
  {| now := now m + dt; entries := entries m; faults := faults m |}.

Definition advance_world (dt : Z) (w : World MemStore) : World MemStore :=
  {| store := advance dt (store w); trace := trace w;
     ticker_stopped := ticker_stopped w;
     ctx_cancelled := ctx_cancelled w;
     tasks := tasks w |}.

(** The store told to fail some of its next commands. *)
Definition with_faults (fs : list (option error)) (w : World MemStore)
  : World MemStore :=
  {| store := {| now := now (store w); entries := entries (store w);
                 faults := fs |};
     trace := trace w;
     ticker_stopped := ticker_stopped w;
     ctx_cancelled := ctx_cancelled w;
     tasks := tasks w |}.

(** ** A reference codec

    The JSON library is external as well.  [json_codec] writes an
    instance as one JSON object with the framework's field names (id,
    name, version, metadata, endpoints), escaping quotes and backslashes,
    and reads back exactly that layout; anything else is a decoding
    error.  [broken_codec] is an encoder that always fails. *)

Definition dquote : ascii := ascii_of_nat 34.
Definition backslash : ascii := ascii_of_nat 92.

Fixpoint escape (s : string) : string :=
  match s with
  | EmptyString => EmptyString
  | String c s' =>
      if (c =? dquote)%char || (c =? backslash)%char
      then String backslash (String c (escape s'))
      else String c (escape s')
  end.

Definition quoted (s : string) : string :=
  String dquote (escape s ++ String dquote EmptyString).

Fixpoint join (sep : string) (l : list string) : string :=
  match l with
  | [] => ""
  | [x] => x
  | x :: l' => x ++ sep ++ join sep l'
  end.

Definition json_array (l : list string) : string :=
  "[" ++ join "," (map quoted l) ++ "]".

Definition json_object (l : list (string * string)) : string :=
  "{" ++ join "," (map (fun kv => quoted (fst kv) ++ ":" ++ quoted (snd kv)) l)
      ++ "}".

Definition json_marshal (si : ServiceInstance) : string :=
  "{" ++ quoted "id" ++ ":" ++ quoted (ID si) ++ ","
      ++ quoted "name" ++ ":" ++ quoted (Name si) ++ ","
      ++ quoted "version" ++ ":" ++ quoted (Version si) ++ ","
      ++ quoted "metadata" ++ ":" ++ json_object (Metadata si) ++ ","
      ++ quoted "endpoints" ++ ":" ++ json_array (Endpoints si) ++ "}".

Definition obind {A B} (o : option A) (f : A -> option B) : option B :=
  match o with
  | Some a => f a
  | None => None
  end.

Notation "x <- o ;; k" := (obind o (fun x => k))
  (at level 61, o at next level, right associativity).
Notation "' p <- o ;; k" := (obind o (fun p => k))
  (at level 61, p pattern, o at next level, right associativity).

(** Strip [lit] from the front of [s]. *)
Fixpoint expect (lit s : string) : option string :=
  match lit with
  | EmptyString => Some s
  | String c lit' =>
      match s with
      | EmptyString => None
      | String d s' => if (c =? d)%char then expect lit' s' else None
      end
  end.

(** The characters up to the closing quote, and what follows it. *)
Fixpoint read_quoted (s : string) : option (string * string) :=
  match s with
  | EmptyString => None
  | String c s' =>
      if (c =? dquote)%char then Some (EmptyString, s')
      else if (c =? backslash)%char then
        match s' with
        | EmptyString => None
        | String d s'' =>
            '(x, rest) <- read_quoted s'' ;; Some (String d x, rest)
        end
      else '(x, rest) <- read_quoted s' ;; Some (String c x, rest)
  end.

Definition parse_string (s : string) : option (string * string) :=
  s1 <- expect (String dquote EmptyString) s ;; read_quoted s1.

Definition parse_pair (s : string) : option ((string * string) * string) :=
  '(k, s1) <- parse_string s ;;
  s2 <- expect ":" s1 ;;
  '(v, s3) <- parse_string s2 ;;
  Some ((k, v), s3).

(** Items separated by commas up to [close]; the opening bracket is
    already read. *)
Fixpoint parse_items {A} (item : string -> option (A * string))
    (close : string) (fuel : nat) (s : string) : option (list A * string) :=
  match fuel with
  | O => None
  | S fuel' =>
      '(x, s1) <- item s ;;
      match expect "," s1 with
      | Some s2 =>
          '(xs, rest) <- parse_items item close fuel' s2 ;; Some (x :: xs, rest)
      | None => rest <- expect close s1 ;; Some ([x], rest)
      end
  end.

Definition parse_seq {A} (item : string -> option (A * string))
    (open close : string) (s : string) : option (list A * string) :=
  s1 <- expect open s ;;
  match expect close s1 with
  | Some rest => Some ([], rest)
  | None => parse_items item close (String.length s) s1
  end.

Definition parse_field (name : string) (s : string) : option string :=
  '(k, s1) <- parse_string s ;;
  if (k =? name)%string then expect ":" s1 else None.

Definition json_parse (s : string) : option ServiceInstance :=
  s <- expect "{" s ;;
  s <- parse_field "id" s ;;
  '(id, s) <- parse_string s ;;
  s <- expect "," s ;;
  s <- parse_field "name" s ;;
  '(name, s) <- parse_string s ;;
  s <- expect "," s ;;
  s <- parse_field "version" s ;;
  '(version, s) <- parse_string s ;;
  s <- expect "," s ;;
  s <- parse_field "metadata" s ;;
  '(metadata, s) <- parse_seq parse_pair "{" "}" s ;;
  s <- expect "," s ;;
  s <- parse_field "endpoints" s ;;
  '(endpoints, s) <- parse_seq parse_string "[" "]" s ;;
  s <- expect "}" s ;;
  match s with
  | EmptyString =>
      Some {| ID := id; Name := name; Version := version;
              Metadata := metadata; Endpoints := endpoints |}
  | String _ _ => None
  end.

Definition json_codec : Codec :=
  {| MarshalToString := fun si => Ok (json_marshal si);
     UnmarshalFromString := fun s =>
       match json_parse s with
       | Some si => Ok si
       | None => Err (SerializationError "invalid instance")
       end |}.

Definition broken_codec : Codec :=
  {| MarshalToString := fun _ => Err (SerializationError "unsupported value");
     UnmarshalFromString := fun _ =>
       Err (SerializationError "unsupported value") |}.

(** ** Instances and registries of the scenarios *)

Definition instance (name id : string) : ServiceInstance :=
  {| ID := id; Name := name; Version := "v1";
     Metadata := [("zone", "a")]; Endpoints := ["grpc://127.0.0.1:9000"] |}.

Definition ms_registry : Registry :=
  {| opts :=
       apply_options
         [Namespace "/ms"; TTL (5 * Second); WatcherTTL (5 * Second)] |}.

Definition ids_of (r : GoResult) : option (list string) :=
  option_map (map ID) (fst r).

(** ** Reading traces *)

(** The error an event's reply carries, if any. *)
Definition event_error (e : Event) : option error :=
  match e with
  | EvTTL _ (Err err) => Some err
  | EvExpire _ _ err => err
  | EvSet _ _ _ err => err
  | EvDel _ err => err
  | EvScan _ _ _ (Err err) => Some err
  | EvMGet _ (Err err) => Some err
  | _ => None
  end.

(** Every value the MGets of a trace delivered, in order. *)
Fixpoint mget_replies (evs : list Event) : list reply :=
  match evs with
  | [] => []
  | EvMGet _ (Ok res) :: evs' => res ++ mget_replies evs'
  | _ :: evs' => mget_replies evs'
  end.

(** The values that are present, that is, strings. *)
Fixpoint present_strings (res : list reply) : list string :=
  match res with
  | [] => []
  | ReplyString s :: res' => s :: present_strings res'
  | _ :: res' => present_strings res'
  end.

(** The Scans of a trace, each with its reply. *)
Record ScanCall := mkScan {
  sc_cursor : N;
  sc_pattern : string;
  sc_count : Z;
  sc_reply : result (list string * N)
}.

Fixpoint scan_log (evs : list Event) : list ScanCall :=
  match evs with
  | [] => []
  | EvScan c p n r :: evs' => mkScan c p n r :: scan_log evs'
  | _ :: evs' => scan_log evs'
  end.

(** A Scan after which the loop of [services] asks for no further batch:
    it failed, or its batch is empty, or its cursor is back at zero. *)
Definition batch_ends (rep : result (list string * N)) : Prop :=
  match rep with
  | Err _ => True
  | Ok (keys, c') => keys = [] \/ c' = 0%N
  end.

(** The Scans of one enumeration, started at cursor [c]: each asks at the
    cursor the one before returned, and none follows a Scan that ends. *)
Fixpoint scan_chain (c : N) (l : list ScanCall) : Prop :=
  match l with
  | [] => False
  | s :: l' =>
      sc_cursor s = c /\
      (batch_ends (sc_reply s) -> l' = []) /\
      match sc_reply s with
      | Err _ => True
      | Ok (_, c') => l' = [] \/ scan_chain c' l'
      end
  end.

Fixpoint last_scan_ends (l : list ScanCall) : Prop :=
  match l with
  | [] => False
  | [s] => batch_ends (sc_reply s)
  | _ :: l' => last_scan_ends l'
  end.

(** ** A scripted client

    A client that answers from a script, one canned reply per command,
    whatever the arguments; a command the script does not expect is a
    store error.  It stands for a store whose content changes between two
    commands of the adapter. *)

Inductive Canned :=
| CanTTL (r : result Duration)
| CanStatus (err : option error)
| CanScan (r : result (list string * N))
| CanMGet (r : result (list reply)).

Definition off_script : error := StoreError "unexpected command".

Definition sTTL (_ : string) (sc : list Canned)
  : result Duration * list Canned :=
  match sc with
  | CanTTL r :: sc' => (r, sc')
  | _ => (Err off_script, sc)
  end.

Definition sStatus (sc : list Canned) : option error * list Canned :=
  match sc with
  | CanStatus r :: sc' => (r, sc')
  | _ => (Some off_script, sc)
  end.

Definition sScan (_ : N) (_ : string) (_ : Z) (sc : list Canned)
  : result (list string * N) * list Canned :=
  match sc with
  | CanScan r :: sc' => (r, sc')
  | _ => (Err off_script, sc)
  end.

Definition sMGet (_ : list string) (sc : list Canned)
  : result (list reply) * list Canned :=
  match sc with
  | CanMGet r :: sc' => (r, sc')
  | _ => (Err off_script, sc)
  end.

Definition scripted_client : Client (list Canned) :=
  {| cTTL := sTTL;
     cExpire := fun _ _ => sStatus;
     cSet := fun _ _ _ => sStatus;
     cDel := fun _ => sStatus;
     cScan := sScan;
     cMGet := sMGet |}.

Section Enumeration.

Variable codec : Codec.

(** The runs of the loop of [services] as a step relation on what it
    exchanges with the store: [enum_run pat c items evs r] reads "from
    cursor [c] with [items] gathered so far, the loop issues [evs] and
    returns [r]". *)
Inductive enum_run (pat : string)
  : N -> list ServiceInstance -> list Event -> GoResult -> Prop :=
| run_scan_failed c items err :
    enum_run pat c items
      [EvScan c pat defaultScan (Err err)] (None, Some err)
| run_empty_batch c items c' :
    enum_run pat c items
      [EvScan c pat defaultScan (Ok ([], c'))] (Some items, None)
| run_mget_failed c items keys c' err :
    keys <> [] ->
    enum_run pat c items
      [EvScan c pat defaultScan (Ok (keys, c')); EvMGet keys (Err err)]
      (None, Some err)
| run_decode_failed c items keys c' res err :
    keys <> [] ->
    decode_values codec res items = Err err ->
    enum_run pat c items
      [EvScan c pat defaultScan (Ok (keys, c')); EvMGet keys (Ok res)]
      (None, Some err)
| run_cycle_complete c items keys res items' :
    keys <> [] ->
    decode_values codec res items = Ok items' ->
    enum_run pat c items
      [EvScan c pat defaultScan (Ok (keys, 0%N)); EvMGet keys (Ok res)]
      (Some items', None)
| run_next_batch c items keys c' res items' evs r :
    keys <> [] ->
    decode_values codec res items = Ok items' ->
    c' <> 0%N ->
    enum_run pat c' items' evs r ->
    enum_run pat c items
      (EvScan c pat defaultScan (Ok (keys, c')) :: EvMGet keys (Ok res)
         :: evs)
      r.

(** Decoding all of [strs], in order. *)
Definition decoded (strs : list string) (items : list ServiceInstance)
  : Prop :=
  Forall2 (fun s si => UnmarshalFromString codec s = Ok si) strs items.

End Enumeration.

(** An event whose reply carries no error. *)
Definition quiet (e : Event) : Prop := event_error e = None.

(** A Scan asked with pattern [pat] and the default count. *)
Definition scan_as (pat : string) (s : ScanCall) : Prop :=
  sc_pattern s = pat /\ sc_count s = defaultScan.

(** The TTL that [register] writes: the configured one plus two seconds. *)
Definition written_ttl (d : Duration) : Duration :=
  dur_add d (dur_mul 2 Second).

(** ** Scenarios on the reference store *)

Definition i1 : ServiceInstance := instance "orders" "i1".

(** Namespace /ms, TTL 5s, an empty store: Register orders/i1. *)
Definition registered_world : World MemStore :=
  snd (Register mem_client json_codec ms_registry i1 (init_world empty_store)).

Definition id_of (n : nat) : string :=
  "i" ++ String (ascii_of_nat (48 + n / 10))
           (String (ascii_of_nat (48 + n mod 10)) EmptyString).

Definition ids25 : list string := map id_of (seq 1 25).

(** Twenty-five instances of orders registered one after the other. *)
Definition world25 : World MemStore :=
  fold_left
    (fun w id =>
       snd (Register mem_client json_codec ms_registry (instance "orders" id) w))
    ids25 (init_world empty_store).

(** A record of orders/i1 with one second left to live, holding an older
    value. *)
Definition one_second_left : MemStore :=
  {| now := 0;
     entries := [ {| e_key := "/ms/orders/i1"; e_val := "old";
                     e_exp := Some Second |} ];
     faults := [] |}.

Definition scan_summary (s : ScanCall) : N * option (nat * N) :=
  (sc_cursor s,
   match sc_reply s with
   | Ok (keys, c') => Some (length keys, c')
   | Err _ => None
   end).

Definition outcome {St} (o : option (GoResult * World St))
  : option (option (list string) * option error) :=
  option_map (fun x => (ids_of (fst x), snd (fst x))) o.

Definition nobody : ServiceInstance :=
  {| ID := ""; Name := ""; Version := "v1"; Metadata := []; Endpoints := [] |}.

Definition i2 : ServiceInstance := instance "orders" "i2".

(** Two batches; in each, one key whose value is gone by the time it is
    fetched. *)
Definition race_script : list Canned :=
  [ CanScan (Ok (["/ms/orders/i0"; "/ms/orders/i1"], 7%N));
    CanMGet (Ok [ReplyNil; ReplyString (json_marshal i1)]);
    CanScan (Ok (["/ms/orders/i2"; "/ms/orders/i3"], 0%N));
    CanMGet (Ok [ReplyString (json_marshal i2); ReplyInt 3]) ].

Definition or_else {A} (o : option A) (d : A) : A :=
  match o with
  | Some a => a
  | None => d
  end.

Definition race_result : GoResult * World (list Canned) :=
  or_else (services scripted_client json_codec 3 "/ms/orders"
             (init_world race_script))
          ((None, None), init_world race_script).

Definition result25 : GoResult * World MemStore :=
  or_else (services mem_client json_codec 2 "/ms/orders" world25)
          ((None, None), world25).

(** orders/i1 and orders-v2/j1 registered under /ms. *)
Definition world_v2 : World MemStore :=
  snd (Register mem_client json_codec ms_registry (instance "orders-v2" "j1")
         registered_world).

(** ** Further notions *)

(** A command that only reads the store. *)
Definition is_read (e : Event) : Prop :=
  match e with
  | EvScan _ _ _ _ | EvMGet _ _ => True
  | _ => False
  end.

(** The exchange of one enumeration: pairs of a Scan that returned a
    batch with keys and the MultiGet of exactly those keys, closed, if at
    all, by one Scan that failed or returned no key. *)
Fixpoint batches_fetched (evs : list Event) : Prop :=
  match evs with
  | [] => True
  | EvScan _ _ _ (Ok (keys, _)) :: EvMGet ks _ :: rest =>
      keys <> [] /\ ks = keys /\ batches_fetched rest
  | [EvScan _ _ _ (Ok ([], _))] => True
  | [EvScan _ _ _ (Err _)] => True
  | _ => False
  end.

(** The largest and the smallest time.Duration. *)
Definition maxDuration : Duration := 2 ^ 63 - 1.
Definition minDuration : Duration := - 2 ^ 63.

(** What TTL answers for a live entry at time [t]. *)
Definition remaining (t : Z) (e : entry) : Duration :=
  match e_exp e with
  | None => -1
  | Some d => d - t
  end.

(** The value the renew-or-write rule leaves under a key: the one found
    there when its reply is above one nanosecond, the new one otherwise. *)
Definition kept_value (t : Z) (found : option entry) (value : string)
  : string :=
  match found with
  | Some old => if 1 <? remaining t old then e_val old else value
  | None => value
  end.

(** [n] rounds of the renewal goroutine on a ticker of period its TTL:
    the period goes by, the tick wakes the goroutine, it renews. *)
Fixpoint beats (t : Renewal) (n : nat) (w : World MemStore)
  : World MemStore :=
  match n with
  | O => w
  | S n' =>
      beats t n'
        (snd (renewal_step mem_client t WakeTick
                (advance_world (rn_ttl t) w)))
  end.

Fixpoint star_free (s : string) : bool :=
  match s with
  | EmptyString => true
  | String c s' => negb (c =? "*")%char && star_free s'
  end.

(** What Expire makes of the entries: every live entry under the key
    expires [d] from [t]. *)
Definition expire_all (t : Z) (k : string) (d : Duration) (es : list entry)
  : list entry :=
  map (fun e =>
         if (e_key e =? k)%string && live t e
         then {| e_key := e_key e; e_val := e_val e; e_exp := Some (t + d) |}
         else e)
      es.

(** ** Further scenarios *)

(** orders/i1 again, at another version and on another endpoint. *)
Definition i1_moved : ServiceInstance :=
  {| ID := "i1"; Name := "orders"; Version := "v2";
     Metadata := [("zone", "b")]; Endpoints := ["grpc://127.0.0.1:9001"] |}.

(** The closure of the goroutine that Register of orders/i1 starts. *)
Definition renew_i1 : Renewal :=
  mkRenewal "/ms/orders/i1" (json_marshal i1) (5 * Second).

(** The record of orders/i1 as Register leaves it at time zero. *)
Definition record_i1 : entry :=
  {| e_key := "/ms/orders/i1"; e_val := json_marshal i1;
     e_exp := Some (7 * Second) |}.

(** ** The renewal goroutines at run time

    How the goroutines that [Register] started run beside the caller:
    the semantics Go gives to [select], to a [time.Ticker] and to a
    cancellable context, over the ticker and the context of the one
    registry of the [World].  The ticker, while it is not stopped, sends a
    tick into its channel, which holds one tick; a stopped ticker sends
    no more, and a tick sent before the stop stays in the channel.  A
    goroutine blocked in its [select] wakes up on a case that is ready:
    the context's Done channel once the context is cancelled, the
    ticker's channel when a tick waits in it, and then takes the tick.
    The ticker's channel is never closed. *)

(** [context.Canceled] *)
Definition context_Canceled : error := ContextError "context canceled".

Section RenewalRuntime.

Context {St : Type}.
Variable client : Client St.

Record Runtime := mkRuntime {
  rt_world : World St;
  rt_tick : bool;
  rt_running : list Renewal
}.

(** The cases of a goroutine's [select] that can fire. *)
Definition ready (rt : Runtime) (wk : Wake) : Prop :=
  match wk with
  | WakeDone cause =>
      ctx_cancelled (rt_world rt) = true /\ cause = context_Canceled
  | WakeTick => rt_tick rt = true
  | WakeClosed => False
  end.

Inductive Label :=
| LSend
| LWake (t : Renewal) (wk : Wake).

(** One step: the ticker sends, or one of the running goroutines wakes
    up and makes one pass through its [select]; a goroutine whose pass
    says it returns is no longer running. *)
Inductive rstep : Runtime -> Label -> Runtime -> Prop :=
| rstep_send rt :
    ticker_stopped (rt_world rt) = false ->
    rstep rt LSend (mkRuntime (rt_world rt) true (rt_running rt))
| rstep_wake rt l1 t l2 wk :
    rt_running rt = (l1 ++ t :: l2)%list ->
    ready rt wk ->
    rstep rt (LWake t wk)
      (mkRuntime
         (snd (renewal_step client t wk (rt_world rt)))
         (match wk with
          | WakeTick => false
          | _ => rt_tick rt
          end)
         (if fst (renewal_step client t wk (rt_world rt))
          then rt_running rt
          else (l1 ++ l2)%list)).

Inductive rsteps : Runtime -> list Label -> Runtime -> Prop :=
| rsteps_nil rt : rsteps rt [] rt
| rsteps_cons rt l rt1 ls rt2 :
    rstep rt l rt1 -> rsteps rt1 ls rt2 -> rsteps rt (l :: ls) rt2.

End RenewalRuntime.

(** The ticks the ticker sent in a run. *)
Fixpoint sends (ls : list Label) : nat :=
  match ls with
  | [] => O
  | LSend :: ls' => S (sends ls')
  | _ :: ls' => sends ls'
  end.

(** The renewals the goroutines made in a run: one for each tick taken. *)
Fixpoint renewals (ls : list Label) : nat :=
  match ls with
  | [] => O
  | LWake _ WakeTick :: ls' => S (renewals ls')
  | _ :: ls' => renewals ls'
  end.

(** A store whose Scan returns an empty batch while its cursor is not
    back at zero: /ms/orders/i2 would have come with the next Scan. *)
Definition sparse_script : list Canned :=
  [ CanScan (Ok (["/ms/orders/i1"], 5%N));
    CanMGet (Ok [ReplyString (json_marshal i1)]);
    CanScan (Ok ([], 9%N));
    CanScan (Ok (["/ms/orders/i2"], 0%N));
    CanMGet (Ok [ReplyString (json_marshal i2)]) ].

Definition sparse_result : GoResult * World (list Canned) :=
  or_else (services scripted_client json_codec 5 "/ms/orders"
             (init_world sparse_script))
          ((None, None), init_world sparse_script).

(** ** Facts about the adapter, over any client and any codec *)

Local Open Scope list_scope.

Section AdapterFacts.

Context {St : Type}.
Variable client : Client St.
Variable codec : Codec.

Lemma trace_doTTL key w :
  trace (snd (doTTL client key w))
  = trace w ++ [EvTTL key (fst (doTTL client key w))].
Proof. unfold doTTL. destruct (cTTL client key (store w)); reflexivity. Qed.

Lemma trace_doScan c p n w :
  trace (snd (doScan client c p n w))
  = trace w ++ [EvScan c p n (fst (doScan client c p n w))].
Proof. unfold doScan. destruct (cScan client c p n (store w)); reflexivity. Qed.

Lemma trace_doMGet ks w :
  trace (snd (doMGet client ks w))
  = trace w ++ [EvMGet ks (fst (doMGet client ks w))].
Proof. unfold doMGet. destruct (cMGet client ks (store w)); reflexivity. Qed.

(** The loop of [services] only ever runs as [enum_run] says. *)
Lemma services_loop_run fuel :
  forall pat c items w r w',
    services_loop client codec fuel pat c items w = Some (r, w') ->
    exists evs, trace w' = trace w ++ evs /\ enum_run codec pat c items evs r.
Proof.
  induction fuel as [|fuel IH]; intros pat c items w r w' H; [discriminate|].
  cbn [services_loop] in H.
  pose proof (trace_doScan c pat defaultScan w) as Ts.
  destruct (doScan client c pat defaultScan w) as [rs w1]; cbn [fst snd] in Ts.
  destruct rs as [[keys c']|err].
  2:{ inversion H; subst. eexists; split; [exact Ts|constructor]. }
  destruct keys as [|k keys]; cbn [length Nat.eqb] in H.
  { inversion H; subst. eexists; split; [exact Ts|constructor]. }
  pose proof (trace_doMGet (k :: keys) w1) as Tm.
  destruct (doMGet client (k :: keys) w1) as [rm w2]; cbn [fst snd] in Tm.
  rewrite Ts, <- app_assoc in Tm; cbn [app] in Tm.
  destruct rm as [res|err].
  2:{ inversion H; subst. eexists; split; [exact Tm|].
      apply run_mget_failed; discriminate. }
  destruct (decode_values codec res items) as [items'|err] eqn:D.
  2:{ inversion H; subst. eexists; split; [exact Tm|].
      apply run_decode_failed; [discriminate|exact D]. }
  destruct (N.eqb_spec c' 0) as [->|Hc].
  { inversion H; subst. eexists; split; [exact Tm|].
    apply run_cycle_complete; [discriminate|exact D]. }
  apply IH in H. destruct H as (evs & Te & Hr).
  eexists; split.
  - rewrite Te, Tm, <- app_assoc. cbn [app]. reflexivity.
  - eapply run_next_batch; eauto. discriminate.
Qed.

Lemma services_run fuel key w r w' :
  services client codec fuel key w = Some (r, w') ->
  exists evs,
    trace w' = trace w ++ evs /\ enum_run codec (key ++ "*")%string 0%N [] evs r.
Proof. unfold services. apply services_loop_run. Qed.

(** *** What the inner loop decodes *)

Lemma present_strings_app a b :
  present_strings (a ++ b) = present_strings a ++ present_strings b.
Proof.
  induction a as [|v a IH]; [reflexivity|].
  destruct v; cbn [app present_strings]; rewrite IH; reflexivity.
Qed.

Lemma decode_values_ok res :
  forall items items',
    decode_values codec res items = Ok items' ->
    exists more,
      items' = items ++ more /\ decoded codec (present_strings res) more.
Proof.
  induction res as [|v res IH]; intros items items' H; cbn in H.
  - inversion H; subst. exists []. rewrite app_nil_r.
    split; [reflexivity|constructor].
  - destruct v as [str| |n]; try (apply IH; exact H).
    destruct (UnmarshalFromString codec str) as [si|err] eqn:U;
      [|discriminate].
    apply IH in H. destruct H as (more & -> & Hd).
    exists (si :: more). rewrite <- app_assoc. split; [reflexivity|].
    cbn. constructor; assumption.
Qed.

Lemma decode_values_err res :
  forall items err,
    decode_values codec res items = Err err ->
    exists str,
      In (ReplyString str) res /\ UnmarshalFromString codec str = Err err.
Proof.
  induction res as [|v res IH]; intros items err H; cbn in H;
    [discriminate|].
  destruct v as [str| |n].
  - destruct (UnmarshalFromString codec str) as [si|e] eqn:U.
    + apply IH in H. destruct H as (s' & Hin & Hs').
      exists s'. split; [right; exact Hin|exact Hs'].
    + inversion H; subst. exists str. split; [left; reflexivity|exact U].
  - apply IH in H. destruct H as (s' & Hin & Hs').
    exists s'. split; [right; exact Hin|exact Hs'].
  - apply IH in H. destruct H as (s' & Hin & Hs').
    exists s'. split; [right; exact Hin|exact Hs'].
Qed.

(** *** What a run of the loop looks like *)

Lemma enum_run_success pat c items evs r :
  enum_run codec pat c items evs r ->
  forall out, r = (Some out, None) ->
    Forall quiet evs /\
    exists more,
      out = items ++ more /\
      decoded codec (present_strings (mget_replies evs)) more.
Proof.
  induction 1 as [c items err|c items c'|c items keys c' err Hk
                 |c items keys c' res err Hk D
                 |c items keys res items' Hk D
                 |c items keys c' res items' evs r Hk D Hc Hrun IH];
    intros out E; try discriminate.
  - inversion E; subst. split; [repeat constructor|].
    exists []. rewrite app_nil_r. split; [reflexivity|constructor].
  - inversion E; subst. split; [repeat constructor|].
    apply decode_values_ok in D. cbn. rewrite app_nil_r. exact D.
  - destruct (IH out E) as (Hq & more & -> & Hd).
    split; [repeat constructor; exact Hq|].
    apply decode_values_ok in D. destruct D as (m0 & -> & Hd0).
    exists (m0 ++ more). rewrite <- app_assoc. split; [reflexivity|].
    cbn. rewrite present_strings_app. apply Forall2_app; assumption.
Qed.

Lemma enum_run_failure pat c items evs r :
  enum_run codec pat c items evs r ->
  forall err, r = (None, Some err) ->
    exists pre last,
      evs = pre ++ [last] /\ Forall quiet pre /\
      (event_error last = Some err \/
       exists keys res str,
         last = EvMGet keys (Ok res) /\ In (ReplyString str) res /\
         UnmarshalFromString codec str = Err err).
Proof.
  induction 1 as [c items err|c items c'|c items keys c' err Hk
                 |c items keys c' res err Hk D
                 |c items keys res items' Hk D
                 |c items keys c' res items' evs r Hk D Hc Hrun IH];
    intros e E; try discriminate.
  - inversion E; subst. exists [], (EvScan c pat defaultScan (Err e)).
    split; [reflexivity|]. split; [constructor|left; reflexivity].
  - inversion E; subst.
    exists [EvScan c pat defaultScan (Ok (keys, c'))], (EvMGet keys (Err e)).
    split; [reflexivity|].
    split; [repeat constructor|left; reflexivity].
  - inversion E; subst.
    exists [EvScan c pat defaultScan (Ok (keys, c'))], (EvMGet keys (Ok res)).
    split; [reflexivity|]. split; [repeat constructor|right].
    apply decode_values_err in D. destruct D as (str & Hin & U).
    exists keys, res, str. auto.
  - destruct (IH e E) as (pre & last & -> & Hq & Hl).
    exists (EvScan c pat defaultScan (Ok (keys, c'))
              :: EvMGet keys (Ok res) :: pre), last.
    split; [reflexivity|]. split; [repeat constructor; exact Hq|exact Hl].
Qed.

Lemma enum_run_result pat c items evs r :
  enum_run codec pat c items evs r ->
  (exists out, r = (Some out, None)) \/ (exists err, r = (None, Some err)).
Proof.
  induction 1; eauto.
Qed.

Lemma enum_run_scans pat c items evs r :
  enum_run codec pat c items evs r ->
  Forall (scan_as pat) (scan_log evs) /\
  scan_chain c (scan_log evs) /\
  (forall out, r = (Some out, None) -> last_scan_ends (scan_log evs)).
Proof.
  induction 1 as [c items err|c items c'|c items keys c' err Hk
                 |c items keys c' res err Hk D
                 |c items keys res items' Hk D
                 |c items keys c' res items' evs r Hk D Hc Hrun IH];
    cbn [scan_log scan_chain last_scan_ends sc_cursor sc_reply batch_ends].
  1-5: repeat match goal with |- _ /\ _ => split end;
       intros; try discriminate; auto;
       try (constructor; [split; reflexivity|constructor]).
  - destruct IH as (Hp & Hch & Hl).
    split; [constructor; [split; reflexivity|exact Hp]|].
    split.
    + split; [reflexivity|]. split; [|right; exact Hch].
      intros [?|?]; contradiction.
    + intros out E. specialize (Hl out E).
      destruct (scan_log evs); [contradiction|exact Hl].
Qed.

End AdapterFacts.

(** ** The registry's operations, over any client and any codec *)

Section RegistryFacts.

Context {St : Type}.
Variable client : Client St.
Variable codec : Codec.

(** What [register] issues: one TTL query, then, when the query
    succeeds, one Expire or one Set, and it returns the error of the last
    command it issued. *)
Lemma register_trace key value d w :
  exists rt,
    trace (snd (register client key value d w))
    = trace w ++ EvTTL key rt ::
        match rt with
        | Err _ => []
        | Ok res =>
            if 1 <? res
            then [EvExpire key (written_ttl d)
                    (fst (register client key value d w))]
            else [EvSet key value (written_ttl d)
                    (fst (register client key value d w))]
        end /\
    tasks (snd (register client key value d w)) = tasks w /\
    match rt with
    | Err e => fst (register client key value d w) = Some e
    | Ok _ => True
    end.
Proof.
  unfold register, doTTL.
  destruct (cTTL client key (store w)) as [[res|e] s1].
  - exists (Ok res). fold (written_ttl d).
    destruct (1 <? res).
    + unfold doExpire; cbn [store emit].
      destruct (cExpire client key (written_ttl d) s1) as [er s2].
      cbn. rewrite <- app_assoc. auto.
    + unfold doSet; cbn [store emit].
      destruct (cSet client key value (written_ttl d) s1) as [er s2].
      cbn. rewrite <- app_assoc. auto.
  - exists (Err e). cbn. auto.
Qed.

(** C8. When encoding the instance fails, Register returns that error
    and leaves the world as it was: no command is issued to the store
    (the store and the trace are unchanged), no goroutine is started,
    and the ticker and the context are untouched. *)
Theorem Register_encoding_error r service w err :
  MarshalToString codec service = Err err ->
  Register client codec r service w = (Some err, w).
Proof.
  intros H. unfold Register. rewrite H. reflexivity.
Qed.

(** C9, as amended. Register does not look at Name or ID.  For an
    instance with an empty Name or an empty ID whose encoding succeeds,
    it applies the renew-or-write rule to the key namespace/Name/ID,
    empty segment included: it queries the TTL of that key and, when the
    query succeeds, issues an Expire or a Set on it; when that command
    succeeds too, Register returns nil and starts the renewal
    goroutine for that key. *)
Theorem Register_accepts_empty_segments r service w value :
  Name service = EmptyString \/ ID service = EmptyString ->
  MarshalToString codec service = Ok value ->
  let key := keyFormat (namespace (opts r)) (Name service) (ID service) in
  let out := Register client codec r service w in
  exists rt,
    (forall e, rt = Err e ->
       fst out = Some e /\ trace (snd out) = trace w ++ [EvTTL key rt]) /\
    (forall res, rt = Ok res ->
       exists wr status,
         (wr = EvExpire key (written_ttl (ttl (opts r))) status \/
          wr = EvSet key value (written_ttl (ttl (opts r))) status) /\
         match status with
         | Some e =>
             fst out = Some e /\
             trace (snd out) = trace w ++ [EvTTL key rt; wr] /\
             tasks (snd out) = tasks w
         | None =>
             fst out = None /\
             trace (snd out)
             = trace w ++ [EvTTL key rt; wr;
                           EvGo (mkRenewal key value (ttl (opts r)))] /\
             tasks (snd out)
             = tasks w ++ [mkRenewal key value (ttl (opts r))]
         end).
Proof.
  intros _ Hm. cbv zeta. unfold Register. rewrite Hm.
  set (key := keyFormat _ _ _).
  destruct (register_trace key value (ttl (opts r)) w) as (rt & T & Tk & Hrt).
  destruct (register client key value (ttl (opts r)) w) as [st w1].
  cbn [fst snd] in *.
  exists rt. split.
  - intros e ->. rewrite (Hrt) in *. cbn. auto.
  - intros res ->.
    destruct (1 <? res).
    + exists (EvExpire key (written_ttl (ttl (opts r))) st), st.
      split; [left; reflexivity|].
      destruct st; cbn; rewrite T; [auto|].
      rewrite <- app_assoc, Tk. auto.
    + exists (EvSet key value (written_ttl (ttl (opts r))) st), st.
      split; [right; reflexivity|].
      destruct st; cbn; rewrite T; [auto|].
      rewrite <- app_assoc, Tk. auto.
Qed.

End RegistryFacts.

(** ** Facts about the reference store *)

Section MemStoreFacts.

Variable codec : Codec.

Local Open Scope nat_scope.

Lemma any_suffix_here f s : f s = true -> any_suffix f s = true.
Proof. intros H. destruct s; cbn; rewrite H; reflexivity. Qed.

Lemma any_suffix_later f c s :
  any_suffix f s = true -> any_suffix f (String c s) = true.
Proof. intros H. cbn. rewrite H. apply orb_true_r. Qed.

Lemma glob_empty_suffix s : any_suffix (glob_match EmptyString) s = true.
Proof.
  induction s as [|d s IH]; [reflexivity|].
  apply any_suffix_later. exact IH.
Qed.

(** A pattern that ends in a star fits every key that starts with what
    precedes the star. *)
Lemma glob_prefix_star p :
  forall s, glob_match (p ++ "*")%string (p ++ s)%string = true.
Proof.
  induction p as [|c p IH]; intros s.
  - cbn. apply glob_empty_suffix.
  - cbn [String.append glob_match].
    destruct (Ascii.eqb c "*").
    + apply any_suffix_later, any_suffix_here, IH.
    + rewrite Ascii.eqb_refl. apply IH.
Qed.

Lemma find_entry_some t k :
  forall es e,
    find_entry t k es = Some e ->
    In e es /\ e_key e = k /\ live t e = true.
Proof.
  induction es as [|x es IH]; intros e H; cbn in H; [discriminate|].
  destruct ((e_key x =? k)%string && live t x) eqn:C.
  - inversion H; subst. apply andb_true_iff in C. destruct C as [Ck Cl].
    apply String.eqb_eq in Ck.
    split; [left; reflexivity|split; assumption].
  - destruct (IH e H) as (Hin & Hk & Hl).
    split; [right; assumption|split; assumption].
Qed.

Lemma find_entry_found t :
  forall es e,
    In e es -> live t e = true ->
    exists e', find_entry t (e_key e) es = Some e'.
Proof.
  induction es as [|x es IH]; intros e Hin Hl; [contradiction|].
  cbn. destruct ((e_key x =? e_key e)%string && live t x) eqn:C;
    [eauto|].
  destruct Hin as [->|Hin]; [|eauto].
  rewrite String.eqb_refl, Hl in C. discriminate.
Qed.

Lemma scan_walk_spec t pat :
  forall es pos count ks nxt,
    scan_walk t pat es pos count = (ks, nxt) ->
    exists n,
      ks = map e_key (filter (matching t pat) (firstn n es)) /\
      (n = length es /\ nxt = 0 \/
       n < length es /\ nxt = pos + n /\ length ks = count).
Proof.
  induction es as [|e es IH]; intros pos count ks nxt H; cbn in H.
  - inversion H; subst. exists 0. split; [reflexivity|left; auto].
  - destruct count as [|c].
    + inversion H; subst. exists 0. cbn.
      split; [reflexivity|right]. repeat split; lia.
    + destruct (matching t pat e) eqn:M.
      * destruct (scan_walk t pat es (S pos) c) as [ks' nxt'] eqn:W.
        inversion H; subst.
        apply IH in W. destruct W as (n & -> & Hn).
        exists (S n). cbn. rewrite M. split; [reflexivity|].
        destruct Hn as [[-> ->]|(Hlt & -> & Hlen)]; [left; auto|right].
        cbn. repeat split; lia.
      * apply IH in H. destruct H as (n & -> & Hn).
        exists (S n). cbn. rewrite M. split; [reflexivity|].
        destruct Hn as [[-> ->]|(Hlt & -> & Hlen)]; [left; auto|right].
        repeat split; try lia; assumption.
Qed.

Lemma take_fault_none m : faults m = [] -> take_fault m = (None, m).
Proof. unfold take_fault. intros ->. reflexivity. Qed.

Lemma doScan_mem c pat n (w : World MemStore) :
  faults (store w) = [] ->
  doScan mem_client c pat n w
  = let (ks, nxt) :=
      scan_walk (now (store w)) pat
        (skipn (N.to_nat c) (entries (store w))) (N.to_nat c) (Z.to_nat n) in
    (Ok (ks, N.of_nat nxt),
     emit (EvScan c pat n (Ok (ks, N.of_nat nxt))) (store w) w).
Proof.
  intros F. unfold doScan. cbn [cScan mem_client]. unfold mScan.
  rewrite (take_fault_none _ F).
  destruct (scan_walk _ _ _ _ _). reflexivity.
Qed.

Lemma doMGet_mem ks (w : World MemStore) :
  faults (store w) = [] ->
  doMGet mem_client ks w
  = (Ok (map (lookup_reply (now (store w)) (entries (store w))) ks),
     emit (EvMGet ks
             (Ok (map (lookup_reply (now (store w)) (entries (store w))) ks)))
          (store w) w).
Proof.
  intros F. unfold doMGet. cbn [cMGet mem_client]. unfold mMGet.
  rewrite (take_fault_none _ F). reflexivity.
Qed.

Lemma in_present_strings s res :
  In (ReplyString s) res -> In s (present_strings res).
Proof.
  induction res as [|v res IH]; [contradiction|].
  intros [->|H]; [left; reflexivity|].
  destruct v; cbn; auto.
Qed.

Lemma decoded_in strs items s :
  decoded codec strs items -> In s strs ->
  exists si, In si items /\ UnmarshalFromString codec s = Ok si.
Proof.
  induction 1 as [|x y xs ys R _ IH]; [contradiction|].
  intros [->|H].
  - exists y. split; [left; reflexivity|exact R].
  - destruct (IH H) as (si & Hin & Hs). exists si. split; [right|]; auto.
Qed.

Lemma decode_values_total res :
  (forall s, In (ReplyString s) res ->
             exists si, UnmarshalFromString codec s = Ok si) ->
  forall items, exists items', decode_values codec res items = Ok items'.
Proof.
  induction res as [|v res IH]; intros H items; cbn; [eauto|].
  destruct v as [s| |n]; try (apply IH; intros; apply H; right; assumption).
  destruct (H s (or_introl eq_refl)) as (si & ->).
  apply IH. intros; apply H; right; assumption.
Qed.

(** On a store that does not fail and whose live records under the
    pattern all decode, the loop, given more rounds than there are
    entries left, returns a list; the list keeps what was gathered and
    holds the instance of every live entry under the pattern from the
    cursor on. *)
Lemma mem_loop_total fuel :
  forall pat pos items (w : World MemStore),
    faults (store w) = [] ->
    (forall e, In e (entries (store w)) ->
               matching (now (store w)) pat e = true ->
               exists si, UnmarshalFromString codec (e_val e) = Ok si) ->
    length (entries (store w)) - pos < fuel ->
    exists out w',
      services_loop mem_client codec fuel pat (N.of_nat pos) items w
      = Some ((Some out, None), w') /\
      (forall si, In si items -> In si out) /\
      (forall e e' si,
         In e (skipn pos (entries (store w))) ->
         matching (now (store w)) pat e = true ->
         find_entry (now (store w)) (e_key e) (entries (store w)) = Some e' ->
         UnmarshalFromString codec (e_val e') = Ok si ->
         In si out).
Proof.
  induction fuel as [|fuel IH]; intros pat pos items w F Hdec Hfuel; [lia|].
  cbn [services_loop]. rewrite (doScan_mem _ _ _ _ F), Nat2N.id.
  change (Z.to_nat defaultScan) with 20.
  set (t := now (store w)) in *. set (all := entries (store w)) in *.
  set (es := skipn pos all).
  assert (Hlen : length es = length all - pos) by apply length_skipn.
  destruct (scan_walk t pat es pos 20) as [ks nxt] eqn:W.
  apply scan_walk_spec in W. destruct W as (n & Hks & Hn).
  assert (Hbatch : forall e e' si,
             In e (firstn n es) -> matching t pat e = true ->
             find_entry t (e_key e) all = Some e' ->
             UnmarshalFromString codec (e_val e') = Ok si ->
             In (ReplyString (e_val e')) (map (lookup_reply t all) ks)).
  { intros e e' si Hin Hm Hf _. apply in_map_iff. exists (e_key e).
    split; [unfold lookup_reply; rewrite Hf; reflexivity|].
    rewrite Hks. apply in_map. apply filter_In. auto. }
  destruct ks as [|k ks'].
  - (* an empty batch: nothing under the pattern from the cursor on *)
    cbn [length Nat.eqb]. eexists _, _. split; [reflexivity|].
    split; [auto|]. intros e e' si Hin Hm _ _. exfalso.
    destruct Hn as [[-> _]|(_ & _ & Hl)]; [|discriminate].
    rewrite firstn_all in Hks. symmetry in Hks. apply map_eq_nil in Hks.
    assert (Hx : In e (filter (matching t pat) es))
      by (apply filter_In; auto).
    rewrite Hks in Hx. exact Hx.
  - cbn [length Nat.eqb].
    set (w1 := emit _ _ w).
    assert (F1 : faults (store w1) = []) by exact F.
    rewrite (doMGet_mem _ _ F1). change (store w1) with (store w).
    fold t all. set (res := map (lookup_reply t all) (k :: ks')) in *.
    destruct (decode_values_total res) with (items := items)
      as (items' & D).
    { intros s Hs. apply in_map_iff in Hs. destruct Hs as (k0 & Hk0 & Hin0).
      unfold lookup_reply in Hk0.
      destruct (find_entry t k0 all) as [e'|] eqn:Hf; [|discriminate].
      inversion Hk0; subst s.
      apply find_entry_some in Hf. destruct Hf as (Hin' & Hk' & Hl').
      apply (Hdec e' Hin').
      rewrite Hks in Hin0. apply in_map_iff in Hin0.
      destruct Hin0 as (e0 & He0 & Hin0). apply filter_In in Hin0.
      destruct Hin0 as [_ Hm0]. unfold matching in *.
      apply andb_true_iff in Hm0. destruct Hm0 as [_ Hg].
      rewrite Hl', Hk', <- He0. exact Hg. }
    rewrite D.
    destruct (decode_values_ok codec _ _ _ D) as (more & -> & Hd).
    assert (Hgot : forall e e' si,
               In e (firstn n es) -> matching t pat e = true ->
               find_entry t (e_key e) all = Some e' ->
               UnmarshalFromString codec (e_val e') = Ok si ->
               In si (items ++ more)).
    { intros e e' si Hin Hm Hf Hu.
      pose proof (Hbatch e e' si Hin Hm Hf Hu) as Hr.
      apply in_present_strings in Hr.
      destruct (decoded_in _ _ _ Hd Hr) as (si' & Hin' & Hu').
      rewrite Hu in Hu'. inversion Hu'; subst si'.
      apply in_or_app. right. exact Hin'. }
    assert (Hn20 : 20 <= n \/ n = length es).
    { destruct Hn as [[-> _]|(_ & _ & Hl)]; [right; reflexivity|left].
      rewrite Hks, length_map in Hl.
      pose proof (filter_length_le (matching t pat) (firstn n es)) as L1.
      pose proof (firstn_le_length n es) as L2. lia. }
    destruct (N.eqb_spec (N.of_nat nxt) 0) as [Hz|Hz].
    + (* the cursor is back at zero: the end was reached *)
      eexists _, _. split; [reflexivity|].
      split; [intros si Hin; apply in_or_app; left; exact Hin|].
      intros e e' si Hin Hm Hf Hu.
      destruct Hn as [[-> _]|(Hlt & -> & _)]; [|lia].
      rewrite firstn_all in Hgot. eauto.
    + destruct Hn as [[_ ->]|(Hlt & -> & Hl)]; [contradiction|].
      set (w2 := emit _ _ w1).
      destruct (IH pat (pos + n) (items ++ more) w2) as (out & w' & E & Hkeep & Hcov).
      * exact F.
      * exact Hdec.
      * change (entries (store w2)) with all. lia.
      * exists out, w'. split; [exact E|].
        split; [intros si Hin; apply Hkeep, in_or_app; left; exact Hin|].
        intros e e' si Hin Hm Hf Hu.
        rewrite <- (firstn_skipn n es) in Hin.
        apply in_app_or in Hin. destruct Hin as [Hin|Hin].
        -- apply Hkeep. eauto.
        -- apply (Hcov e e' si); try assumption.
           change (entries (store w2)) with all.
           unfold es in Hin. rewrite skipn_skipn in Hin.
           rewrite Nat.add_comm. exact Hin.
Qed.

Lemma string_app_assoc (a b c : string) :
  ((a ++ b) ++ c = a ++ b ++ c)%string.
Proof.
  induction a as [|x a IH]; [reflexivity|]. cbn. rewrite IH. reflexivity.
Qed.

(** The registration key of a longer name starts with the watch key of
    the shorter one. *)
Lemma keyFormat_longer ns name ext id :
  keyFormat ns (name ++ ext)%string id
  = (watcherFormat ns name ++ (ext ++ "/" ++ id))%string.
Proof.
  unfold keyFormat, watcherFormat. rewrite !string_app_assoc. reflexivity.
Qed.

(** The enumeration of a prefix on such a store returns a list that
    holds the instance of every live record whose key starts with the
    prefix. *)
Lemma services_mem_covers_prefix prefix suffix (w : World MemStore) e si :
  faults (store w) = [] ->
  (forall x, In x (entries (store w)) ->
             matching (now (store w)) (prefix ++ "*")%string x = true ->
             exists y, UnmarshalFromString codec (e_val x) = Ok y) ->
  find_entry (now (store w)) (prefix ++ suffix)%string (entries (store w))
  = Some e ->
  UnmarshalFromString codec (e_val e) = Ok si ->
  exists out w',
    services mem_client codec (S (length (entries (store w)))) prefix w
    = Some ((Some out, None), w') /\
    In si out.
Proof.
  intros F Hdec Hf Hu. unfold services.
  destruct (mem_loop_total (S (length (entries (store w))))
              (prefix ++ "*")%string 0 [] w F Hdec)
    as (out & w' & E & _ & Hcov); [lia|].
  exists out, w'. split; [exact E|].
  destruct (find_entry_some _ _ _ _ Hf) as (Hin & Hk & Hl).
  apply (Hcov e e si).
  - exact Hin.
  - unfold matching. rewrite Hl, Hk. apply glob_prefix_star.
  - rewrite Hk. exact Hf.
  - exact Hu.
Qed.

End MemStoreFacts.

(** C10. The key of a watcher is namespace/name with nothing after the
    name, and every Scan that Next issues asks for that key followed by a
    star; such a pattern fits every key that starts with the watcher's
    key, whatever comes next.  So on a store that does not fail and whose
    live records under the pattern all decode, Next of a watcher on a
    name returns a list that holds the instance recorded under
    namespace/longer/id for every longer name that starts with the watched
    one: a watch on orders yields the instances of orders-v2 as well. *)
Theorem watch_reaches_longer_names :
  (forall r name,
     key (fst (Watch r name)) = (namespace (opts r) ++ "/" ++ name)%string) /\
  (forall St (client : Client St) codec fuel r name w res w',
     Next client codec fuel (fst (Watch r name)) WakeTick w = Some (res, w') ->
     exists evs,
       trace w' = trace w ++ evs /\
       Forall (fun s => sc_pattern s
                        = ((namespace (opts r) ++ "/" ++ name) ++ "*")%string)
         (scan_log evs)) /\
  (forall prefix suffix,
     glob_match (prefix ++ "*")%string (prefix ++ suffix)%string = true) /\
  (forall codec r name ext id (w : World MemStore) e si,
     faults (store w) = [] ->
     (forall x, In x (entries (store w)) ->
                matching (now (store w))
                  (watcherFormat (namespace (opts r)) name ++ "*")%string x
                = true ->
                exists y, UnmarshalFromString codec (e_val x) = Ok y) ->
     find_entry (now (store w))
       (keyFormat (namespace (opts r)) (name ++ ext)%string id)
       (entries (store w)) = Some e ->
     UnmarshalFromString codec (e_val e) = Ok si ->
     exists out w',
       Next mem_client codec (S (length (entries (store w))))
         (fst (Watch r name)) WakeTick w
       = Some ((Some out, None), w') /\
       In si out) /\
  option_map fst
    (Next mem_client json_codec 2 (fst (Watch ms_registry "orders")) WakeTick
       world_v2)
  = Some (Some [i1; instance "orders-v2" "j1"], None).
Proof.
  split; [reflexivity|]. split.
  { intros St client codec fuel r name w res w' H. cbn in H.
    apply services_run in H. destruct H as (evs & T & Hrun).
    exists evs. split; [exact T|].
    destruct (enum_run_scans codec _ _ _ _ _ Hrun) as (Hp & _ & _).
    eapply Forall_impl; [|exact Hp]. intros s [Hs _]. exact Hs. }
  split; [intros; apply glob_prefix_star|]. split.
  { intros codec r name ext id w e si F Hdec Hf Hu. cbn [Next Watch fst key newWatcher].
    apply (services_mem_covers_prefix codec
             (watcherFormat (namespace (opts r)) name)
             (ext ++ "/" ++ id)%string w e si F Hdec); [|exact Hu].
    rewrite <- keyFormat_longer. exact Hf. }
  vm_compute. reflexivity.
Qed.

Lemma watch_reaches_longer_names_witness :
  faults (store world_v2) = [] /\
  (forall x, In x (entries (store world_v2)) ->
             matching (now (store world_v2))
               (watcherFormat (namespace (opts ms_registry)) "orders" ++ "*")%string
               x = true ->
             exists y, UnmarshalFromString json_codec (e_val x) = Ok y) /\
  find_entry (now (store world_v2))
    (keyFormat (namespace (opts ms_registry)) ("orders" ++ "-v2")%string "j1")
    (entries (store world_v2))
  = Some {| e_key := "/ms/orders-v2/j1";
            e_val := json_marshal (instance "orders-v2" "j1");
            e_exp := Some (7 * Second)%Z |} /\
  UnmarshalFromString json_codec (json_marshal (instance "orders-v2" "j1"))
  = Ok (instance "orders-v2" "j1") /\
  exists out w',
    Next mem_client json_codec (S (length (entries (store world_v2))))
      (fst (Watch ms_registry "orders")) WakeTick world_v2
    = Some ((Some out, None), w') /\
    In (instance "orders-v2" "j1") out.
Proof.
  assert (H1 : faults (store world_v2) = []) by reflexivity.
  assert (H2 : forall x, In x (entries (store world_v2)) ->
             matching (now (store world_v2))
               (watcherFormat (namespace (opts ms_registry)) "orders" ++ "*")%string
               x = true ->
             exists y, UnmarshalFromString json_codec (e_val x) = Ok y).
  { intros x Hin _. vm_compute in Hin.
    destruct Hin as [<-|[<-|[]]]; eexists; vm_compute; reflexivity. }
  assert (H3 : find_entry (now (store world_v2))
    (keyFormat (namespace (opts ms_registry)) ("orders" ++ "-v2")%string "j1")
    (entries (store world_v2))
  = Some {| e_key := "/ms/orders-v2/j1";
            e_val := json_marshal (instance "orders-v2" "j1");
            e_exp := Some (7 * Second)%Z |}) by (vm_compute; reflexivity).
  assert (H4 : UnmarshalFromString json_codec
                 (e_val {| e_key := "/ms/orders-v2/j1";
                           e_val := json_marshal (instance "orders-v2" "j1");
                           e_exp := Some (7 * Second)%Z |})
               = Ok (instance "orders-v2" "j1")) by (vm_compute; reflexivity).
  split; [exact H1|]. split; [exact H2|]. split; [exact H3|].
  split; [exact H4|].
  exact (proj1 (proj2 (proj2 (proj2 watch_reaches_longer_names)))
           json_codec ms_registry "orders"%string "-v2"%string "j1"%string
           world_v2 _ _ H1 H2 H3 H4).
Defined.

(** ** Runs of the model on small inputs *)

Example keyFormat_orders :
  keyFormat "/ms" "orders" "i1" = "/ms/orders/i1"%string.
Proof. reflexivity. Qed.

Example New_defaults :
  New []
  = Returns {| opts := {| namespace := "/microservices"; ttl := 60 * Second;
                          watcherTtl := 60 * Second |} |}.
Proof. reflexivity. Qed.

Example New_ms_registry :
  New [Namespace "/ms"; TTL (5 * Second); WatcherTTL (5 * Second)]
  = Returns ms_registry.
Proof. reflexivity. Qed.

Example New_panics_without_ttl :
  New [Namespace "/ms"; TTL 0] = Panics.
Proof. reflexivity. Qed.

Example written_ttl_default : written_ttl defaultTTL = (62 * Second)%Z.
Proof. reflexivity. Qed.

Example glob_is_anchored :
  glob_match "orders*" "/ms/orders/i1" = false /\
  glob_match "/ms/orders*" "/ms/orders/i1" = true /\
  glob_match "/ms/orders*" "/ms/order" = false.
Proof. repeat split; reflexivity. Qed.

Example json_round_trip :
  json_parse (json_marshal i1) = Some i1 /\
  json_parse (json_marshal nobody) = Some nobody /\
  json_parse "{}" = None.
Proof. repeat split; vm_compute; reflexivity. Qed.

(** The second Scan of the 25-instance enumeration fails: the twenty
    instances already decoded are not returned. *)
Example second_scan_fails :
  option_map fst
    (services mem_client json_codec 2 "/ms/orders"
       (with_faults [None; None; Some (StoreError "connection reset")]
          world25))
  = Some (None, Some (StoreError "connection reset")).
Proof. vm_compute. reflexivity. Qed.

(** A present value that does not decode aborts the enumeration. *)
Example undecodable_value_aborts :
  option_map fst
    (services scripted_client json_codec 2 "/ms/orders"
       (init_world
          [ CanScan (Ok (["/ms/orders/i1"; "/ms/orders/i2"], 0%N));
            CanMGet (Ok [ReplyString (json_marshal i1);
                         ReplyString "not an instance"]) ]))
  = Some (None, Some (SerializationError "invalid instance")).
Proof. vm_compute. reflexivity. Qed.

(** The record written with TTL 5s + 2s is gone after 8s without
    renewal, and a renewal on the tick at 5s carries it to 12s. *)
Example record_expires_unless_renewed :
  option_map fst
    (Next mem_client json_codec 2 (fst (Watch ms_registry "orders")) WakeTick
       (advance_world (8 * Second) registered_world))
  = Some (Some [], None) /\
  option_map fst
    (Next mem_client json_codec 2 (fst (Watch ms_registry "orders")) WakeTick
       (advance_world (3 * Second)
          (snd (renewal_step mem_client
                  (mkRenewal "/ms/orders/i1" (json_marshal i1) (5 * Second))
                  WakeTick
                  (advance_world (5 * Second) registered_world)))))
  = Some (Some [i1], None).
Proof. split; vm_compute; reflexivity. Qed.

(** After Deregister the watcher's enumeration is empty. *)
Example Deregister_then_Next :
  fst (Deregister mem_client ms_registry i1 registered_world) = None /\
  option_map fst
    (Next mem_client json_codec 2 (fst (Watch ms_registry "orders")) WakeTick
       (snd (Deregister mem_client ms_registry i1 registered_world)))
  = Some (Some [], None).
Proof. split; vm_compute; reflexivity. Qed.

Example Stop_twice wt : Stop (fst (Stop wt)) = Stop wt.
Proof. reflexivity. Qed.

Example Next_cancelled fuel wt (w : World MemStore) :
  Next mem_client json_codec fuel wt (WakeDone (ContextError "context canceled")) w
  = Some ((None, Some (ContextError "context canceled")), w).
Proof. reflexivity. Qed.

(** ** The claims on concrete runs *)

(** C1 (the code departs from it). GetService hands the bare service name
    to the enumeration routine: the namespace of the registry plays no
    part, and the pattern scanned is the name followed by a star, not
    namespace/name.  With namespace /ms and the record /ms/orders/i1 in
    the store, GetService("orders") scans for orders* and finds nothing,
    where the watch prefix is /ms/orders. *)
Theorem GetService_scans_bare_name :
  (forall St (client : Client St) codec fuel r name w,
     GetService client codec fuel r name w
     = services client codec fuel name w) /\
  (forall St (client : Client St) codec fuel r r' name w,
     GetService client codec fuel r name w
     = GetService client codec fuel r' name w) /\
  option_map (fun x => (fst x, map sc_pattern (scan_log (trace (snd x)))))
    (GetService mem_client json_codec 2 ms_registry "orders" registered_world)
  = Some ((Some [], None), ["orders*"%string]) /\
  key (fst (Watch ms_registry "orders")) = "/ms/orders"%string.
Proof.
  split; [reflexivity|]. split; [reflexivity|].
  split; vm_compute; reflexivity.
Qed.

(** C2 (the code departs from it). Register of orders/i1 under namespace
    /ms on an empty store succeeds and the record is in the store, alive,
    under /ms/orders/i1; GetService("orders") on the same registry
    nevertheless returns the empty list. *)
Theorem Register_then_GetService_misses :
  fst (Register mem_client json_codec ms_registry i1 (init_world empty_store))
  = None /\
  option_map e_val
    (find_entry (now (store registered_world)) "/ms/orders/i1"
       (entries (store registered_world)))
  = Some (json_marshal i1) /\
  UnmarshalFromString json_codec (json_marshal i1) = Ok i1 /\
  option_map fst
    (GetService mem_client json_codec 2 ms_registry "orders" registered_world)
  = Some (Some [], None).
Proof.
  repeat split; vm_compute; reflexivity.
Qed.

(** C3 (the code departs from it). The threshold of the renew-or-write
    rule is the untyped constant 1 compared with a time.Duration, that is
    one nanosecond.  On a record with exactly one second left and an older
    value, the rule issues TTL and Expire only and the older value stays
    in the store. *)
Theorem register_one_second_left_only_expires :
  register mem_client "/ms/orders/i1" "new" (5 * Second)
    (init_world one_second_left)
  = (None,
     {| store :=
          {| now := 0;
             entries := [ {| e_key := "/ms/orders/i1"; e_val := "old";
                             e_exp := Some (7 * Second) |} ];
             faults := [] |};
        trace := [ EvTTL "/ms/orders/i1" (Ok Second);
                   EvExpire "/ms/orders/i1" (7 * Second) None ];
        ticker_stopped := false;
        ctx_cancelled := false;
        tasks := [] |}).
Proof.
  vm_compute. reflexivity.
Qed.

(** C4 (the code departs from it). With orders/i1 registered under /ms
    and nothing changing in between, Next of a watcher on "orders" returns
    the instance i1 and GetService("orders") returns the empty list. *)
Theorem Next_and_GetService_disagree :
  option_map fst
    (Next mem_client json_codec 2 (fst (Watch ms_registry "orders")) WakeTick
       registered_world)
  = Some (Some [i1], None) /\
  option_map fst
    (GetService mem_client json_codec 2 ms_registry "orders" registered_world)
  = Some (Some [], None).
Proof.
  split; vm_compute; reflexivity.
Qed.

(** C9 (counterexample). An instance whose Name and ID are both empty is
    accepted: Register returns nil, the store holds a record under the
    key /ms// and a renewal goroutine is started for it. *)
Lemma Register_nobody_is_accepted :
  fst (Register mem_client json_codec ms_registry nobody
         (init_world empty_store)) = None /\
  map e_key
    (entries (store (snd (Register mem_client json_codec ms_registry nobody
                            (init_world empty_store)))))
  = ["/ms//"%string] /\
  map rn_key
    (tasks (snd (Register mem_client json_codec ms_registry nobody
                   (init_world empty_store))))
  = ["/ms//"%string].
Proof.
  repeat split; vm_compute; reflexivity.
Qed.

(** C7. Whatever the store and the codec, an enumeration that returns
    has asked every Scan with the pattern prefix-star and the count 20;
    its first Scan is at cursor zero, each later one at the cursor the
    Scan before it returned, and no Scan follows one whose batch is empty
    or whose cursor is zero; when it returns a list, the last Scan is such
    a one and the list holds the decoding of every present value of every
    batch.  With the 25 instances of orders registered in the reference
    store, the enumeration of /ms/orders takes two Scans, of 20 and of 5
    keys, and returns the 25 instances. *)
Theorem services_scans_in_batches :
  (forall St (client : Client St) codec fuel key w r w',
     services client codec fuel key w = Some (r, w') ->
     exists evs,
       trace w' = trace w ++ evs /\
       Forall (fun s => sc_pattern s = (key ++ "*")%string /\ sc_count s = 20%Z)
         (scan_log evs) /\
       scan_chain 0%N (scan_log evs) /\
       forall items,
         r = (Some items, None) ->
         last_scan_ends (scan_log evs) /\
         decoded codec (present_strings (mget_replies evs)) items) /\
  services mem_client json_codec 2 "/ms/orders" world25
  = Some (fst result25, snd result25) /\
  fst result25 = (Some (map (instance "orders") ids25), None) /\
  length ids25 = 25%nat /\
  map scan_summary (scan_log (trace (snd result25)))
  = [(0%N, Some (20%nat, 20%N)); (20%N, Some (5%nat, 0%N))].
Proof.
  split.
  - intros St client codec fuel key w r w' H.
    apply services_run in H. destruct H as (evs & T & Hrun).
    exists evs. split; [exact T|].
    destruct (enum_run_scans codec _ _ _ _ _ Hrun) as (Hp & Hc & Hl).
    split; [exact Hp|]. split; [exact Hc|].
    intros items E. split; [exact (Hl items E)|].
    destruct (enum_run_success codec _ _ _ _ _ Hrun items E)
      as (_ & more & -> & Hd).
    exact Hd.
  - repeat split; vm_compute; reflexivity.
Qed.

Lemma services_scans_in_batches_witness :
  services mem_client json_codec 2 "/ms/orders" world25
  = Some (fst result25, snd result25) /\
  exists evs,
    trace (snd result25) = trace world25 ++ evs /\
    Forall (fun s => sc_pattern s = "/ms/orders*"%string /\ sc_count s = 20%Z)
      (scan_log evs) /\
    scan_chain 0%N (scan_log evs) /\
    forall items,
      fst result25 = (Some items, None) ->
      last_scan_ends (scan_log evs) /\
      decoded json_codec (present_strings (mget_replies evs)) items.
Proof.
  assert (H : services mem_client json_codec 2 "/ms/orders" world25
              = Some (fst result25, snd result25))
    by (vm_compute; reflexivity).
  split; [exact H|].
  exact (proj1 services_scans_in_batches _ mem_client json_codec 2%nat
           "/ms/orders"%string world25 _ _ H).
Defined.

Lemma Register_encoding_error_witness :
  MarshalToString broken_codec i1
  = Err (SerializationError "unsupported value") /\
  Register mem_client broken_codec ms_registry i1 (init_world empty_store)
  = (Some (SerializationError "unsupported value"), init_world empty_store).
Proof.
  split; [reflexivity|].
  apply (Register_encoding_error mem_client broken_codec ms_registry i1
           (init_world empty_store) (SerializationError "unsupported value")).
  reflexivity.
Defined.

Lemma Register_accepts_empty_segments_witness :
  (Name nobody = EmptyString \/ ID nobody = EmptyString) /\
  MarshalToString json_codec nobody = Ok (json_marshal nobody) /\
  exists rt,
    (forall e, rt = Err e ->
       fst (Register mem_client json_codec ms_registry nobody
              (init_world empty_store)) = Some e /\
       trace (snd (Register mem_client json_codec ms_registry nobody
                     (init_world empty_store)))
       = trace (init_world empty_store) ++ [EvTTL "/ms//" rt]) /\
    (forall res, rt = Ok res ->
       exists wr status,
         (wr = EvExpire "/ms//" (7 * Second) status \/
          wr = EvSet "/ms//" (json_marshal nobody) (7 * Second) status) /\
         match status with
         | Some e =>
             fst (Register mem_client json_codec ms_registry nobody
                    (init_world empty_store)) = Some e /\
             trace (snd (Register mem_client json_codec ms_registry nobody
                           (init_world empty_store)))
             = trace (init_world empty_store) ++ [EvTTL "/ms//" rt; wr] /\
             tasks (snd (Register mem_client json_codec ms_registry nobody
                           (init_world empty_store)))
             = tasks (init_world empty_store)
         | None =>
             fst (Register mem_client json_codec ms_registry nobody
                    (init_world empty_store)) = None /\
             trace (snd (Register mem_client json_codec ms_registry nobody
                           (init_world empty_store)))
             = trace (init_world empty_store)
               ++ [EvTTL "/ms//" rt; wr;
                   EvGo (mkRenewal "/ms//" (json_marshal nobody) (5 * Second))] /\
             tasks (snd (Register mem_client json_codec ms_registry nobody
                           (init_world empty_store)))
             = tasks (init_world empty_store)
               ++ [mkRenewal "/ms//" (json_marshal nobody) (5 * Second)]
         end).
Proof.
  split; [left; reflexivity|]. split; [reflexivity|].
  exact (Register_accepts_empty_segments mem_client json_codec ms_registry
           nobody (init_world empty_store) (json_marshal nobody)
           (or_introl eq_refl) eq_refl).
Defined.

(** ** Further properties, over any client and any codec *)

Section MoreRegistryFacts.

Context {St : Type}.
Variable client : Client St.
Variable codec : Codec.

Lemma register_keeps key value d w :
  ticker_stopped (snd (register client key value d w)) = ticker_stopped w /\
  ctx_cancelled (snd (register client key value d w)) = ctx_cancelled w /\
  tasks (snd (register client key value d w)) = tasks w.
Proof.
  unfold register, doTTL.
  destruct (cTTL client key (store w)) as [[res|e] s1]; [|repeat split].
  destruct (1 <? res).
  - unfold doExpire. destruct (cExpire client _ _ _). repeat split.
  - unfold doSet. destruct (cSet client _ _ _ _). repeat split.
Qed.

(** X1. The renew-or-write rule issues one TTL query on the key and,
    only when the query succeeds, one write on the same key, carrying
    the configured TTL plus two seconds: an Expire when the reply is above
    one nanosecond, a Set of the value otherwise.  It returns the error
    of the query when the query fails and the status of the write
    otherwise, and it leaves the ticker, the context and the goroutines
    alone. *)
Theorem register_commands key value d w :
  exists rt,
    (forall e, rt = Err e ->
       fst (register client key value d w) = Some e /\
       trace (snd (register client key value d w))
       = trace w ++ [EvTTL key rt]) /\
    (forall res, rt = Ok res ->
       trace (snd (register client key value d w))
       = trace w ++
           [EvTTL key rt;
            if 1 <? res
            then EvExpire key (written_ttl d)
                   (fst (register client key value d w))
            else EvSet key value (written_ttl d)
                   (fst (register client key value d w))]) /\
    ticker_stopped (snd (register client key value d w)) = ticker_stopped w /\
    ctx_cancelled (snd (register client key value d w)) = ctx_cancelled w /\
    tasks (snd (register client key value d w)) = tasks w.
Proof.
  destruct (register_trace client key value d w) as (rt & T & _ & Hrt).
  exists rt. split; [|split].
  - intros e ->. split; [exact Hrt|exact T].
  - intros res ->. rewrite T. destruct (1 <? res); reflexivity.
  - apply register_keeps.
Qed.

(** X2. Register starts its renewal goroutine exactly when it returns
    nil: then the encoding succeeded and one goroutine is added, closed
    over the key namespace/Name/ID, the encoded value and the configured
    TTL; when Register returns an error no goroutine is added.  In both
    cases the ticker and the context are as before. *)
Theorem Register_goroutine_iff_nil r service w :
  (fst (Register client codec r service w) = None ->
   exists value,
     MarshalToString codec service = Ok value /\
     tasks (snd (Register client codec r service w))
     = tasks w ++
         [mkRenewal
            (keyFormat (namespace (opts r)) (Name service) (ID service))
            value (ttl (opts r))]) /\
  (fst (Register client codec r service w) <> None ->
   tasks (snd (Register client codec r service w)) = tasks w) /\
  ticker_stopped (snd (Register client codec r service w)) = ticker_stopped w /\
  ctx_cancelled (snd (Register client codec r service w)) = ctx_cancelled w.
Proof.
  unfold Register.
  destruct (MarshalToString codec service) as [value|e].
  2:{ cbn. split; [discriminate|]. split; [reflexivity|]. split; reflexivity. }
  set (k := keyFormat _ _ _).
  destruct (register_keeps k value (ttl (opts r)) w) as (Ht & Hc & Hk).
  destruct (register client k value (ttl (opts r)) w) as [[e|] w1];
    cbn [fst snd] in *.
  - split; [discriminate|]. split; [intros _; exact Hk|].
    split; assumption.
  - split; [intros _; exists value; cbn; rewrite Hk; auto|].
    split; [intros H; contradiction|]. split; assumption.
Qed.

(** X3. One pass of the renewal goroutine goes round again exactly on a
    tick, also when the renewal it made failed; woken by the cancelled
    context or by a closed ticker channel it returns and issues nothing.
    On a tick it issues the commands of one renew-or-write and no other.
    It never starts a goroutine and never stops the ticker or cancels
    the context. *)
Theorem renewal_step_behaviour t wk w :
  (fst (renewal_step client t wk w) = true <-> wk = WakeTick) /\
  (wk <> WakeTick -> snd (renewal_step client t wk w) = w) /\
  (wk = WakeTick ->
   snd (renewal_step client t wk w)
   = snd (register client (rn_key t) (rn_value t) (rn_ttl t) w)) /\
  tasks (snd (renewal_step client t wk w)) = tasks w /\
  ticker_stopped (snd (renewal_step client t wk w)) = ticker_stopped w /\
  ctx_cancelled (snd (renewal_step client t wk w)) = ctx_cancelled w.
Proof.
  destruct wk as [cause| |]; cbn [renewal_step fst snd].
  - split; [split; discriminate|]. split; [reflexivity|].
    split; [discriminate|]. auto.
  - destruct (register_keeps (rn_key t) (rn_value t) (rn_ttl t) w)
      as (Ht & Hc & Hk).
    split; [split; reflexivity|]. split; [intros H; contradiction|].
    split; [reflexivity|]. auto.
  - split; [split; discriminate|]. split; [reflexivity|].
    split; [discriminate|]. auto.
Qed.

Lemma services_loop_keeps fuel :
  forall pat c items w r w',
    services_loop client codec fuel pat c items w = Some (r, w') ->
    ticker_stopped w' = ticker_stopped w /\
    ctx_cancelled w' = ctx_cancelled w /\
    tasks w' = tasks w.
Proof.
  induction fuel as [|fuel IH]; intros pat c items w r w' H; [discriminate|].
  cbn [services_loop] in H. unfold doScan in H.
  destruct (cScan client c pat defaultScan (store w)) as [rs s1].
  destruct rs as [[keys c']|err]; [|inversion H; subst; repeat split].
  destruct keys as [|k keys]; cbn [length Nat.eqb] in H;
    [inversion H; subst; repeat split|].
  unfold doMGet in H. cbn [store emit] in H.
  destruct (cMGet client (k :: keys) s1) as [rm s2].
  destruct rm as [res|err]; [|inversion H; subst; repeat split].
  destruct (decode_values codec res items) as [items'|err];
    [|inversion H; subst; repeat split].
  destruct (c' =? 0)%N; [inversion H; subst; repeat split|].
  apply IH in H. exact H.
Qed.

Lemma enum_run_batches pat c items evs r :
  enum_run codec pat c items evs r ->
  batches_fetched evs /\ Forall is_read evs.
Proof.
  induction 1 as [c items err|c items c'|c items keys c' err Hk
                 |c items keys c' res err Hk D
                 |c items keys res items' Hk D
                 |c items keys c' res items' evs r Hk D Hc Hrun IH];
    cbn [batches_fetched];
    try (destruct keys as [|k keys]; [contradiction|]).
  1-5: split; [auto|repeat constructor].
  destruct IH as [Hb Hr]. split; [auto|repeat constructor; exact Hr].
Qed.

Lemma services_only_reads fuel key w r w' :
  services client codec fuel key w = Some (r, w') ->
  exists evs,
    trace w' = trace w ++ evs /\
    Forall is_read evs /\
    ticker_stopped w' = ticker_stopped w /\
    ctx_cancelled w' = ctx_cancelled w /\
    tasks w' = tasks w.
Proof.
  intros H. pose proof H as Hk. unfold services in Hk.
  apply services_loop_keeps in Hk.
  apply services_run in H. destruct H as (evs & T & Hrun).
  exists evs. apply enum_run_batches in Hrun. tauto.
Qed.

(** X4. A call of Next only reads: every command it issues is a Scan or
    a MultiGet, never a TTL query, an Expire, a Set or a Del, and it
    leaves the registry's ticker, context and goroutines alone.  Woken by
    the cancelled context it issues nothing at all and returns a nil list
    with the context's error. *)
Theorem Next_only_reads fuel wt wk w r w' :
  Next client codec fuel wt wk w = Some (r, w') ->
  exists evs,
    trace w' = trace w ++ evs /\
    Forall is_read evs /\
    ticker_stopped w' = ticker_stopped w /\
    ctx_cancelled w' = ctx_cancelled w /\
    tasks w' = tasks w /\
    (forall cause, wk = WakeDone cause ->
                   evs = [] /\ r = (None, Some cause) /\ w' = w).
Proof.
  intros H. destruct wk as [cause| |]; cbn [Next] in H.
  - inversion H; subst. exists []. rewrite app_nil_r.
    do 5 (split; [auto|]).
    intros c E; inversion E; subst; auto.
  - destruct (services_only_reads _ _ _ _ _ H) as (evs & T & Hr & Ht & Hc & Hk).
    exists evs. do 5 (split; [assumption|]). intros c E; discriminate.
  - destruct (services_only_reads _ _ _ _ _ H) as (evs & T & Hr & Ht & Hc & Hk).
    exists evs. do 5 (split; [assumption|]). intros c E; discriminate.
Qed.

(** X5. In one enumeration every batch of keys a Scan returns is
    fetched by one MultiGet that asks for exactly those keys, before the
    next Scan is issued; a Scan that fails or returns no key is the last
    command of the enumeration and no MultiGet is issued for it. *)
Theorem services_fetches_each_batch fuel key w r w' :
  services client codec fuel key w = Some (r, w') ->
  exists evs, trace w' = trace w ++ evs /\ batches_fetched evs.
Proof.
  intros H. apply services_run in H. destruct H as (evs & T & Hrun).
  exists evs. split; [exact T|]. apply (enum_run_batches _ _ _ _ _ Hrun).
Qed.

End MoreRegistryFacts.

(** ** Options and durations *)

(** X7. The TTL the renew-or-write rule writes is the configured one
    plus two seconds in 64-bit arithmetic: the exact sum as long as it
    fits, so above the configured TTL, and for a configured TTL within
    two seconds of the largest duration the sum wraps round to a negative
    duration. *)
Theorem written_ttl_wraps d :
  minDuration <= d <= maxDuration ->
  (d <= maxDuration - 2 * Second -> written_ttl d = d + 2 * Second) /\
  (maxDuration - 2 * Second < d ->
   written_ttl d = d + 2 * Second - 2 ^ 64 /\ written_ttl d < 0).
Proof.
  unfold minDuration, maxDuration, written_ttl, dur_add, dur_mul, wrap64,
    Second, Nanosecond.
  intros Hd.
  change ((2 * (1000000000 * 1) + 2 ^ 63) mod 2 ^ 64 - 2 ^ 63)
    with 2000000000.
  split.
  - intros H. rewrite Z.mod_small; lia.
  - intros H.
    assert (E : (d + 2000000000 + 2 ^ 63) mod 2 ^ 64
                = d + 2000000000 + 2 ^ 63 - 2 ^ 64).
    { symmetry. apply Z.mod_unique with (q := 1); lia. }
    rewrite E. lia.
Qed.

Lemma written_ttl_wraps_witness :
  minDuration <= maxDuration <= maxDuration /\
  written_ttl maxDuration = maxDuration + 2 * Second - 2 ^ 64 /\
  written_ttl maxDuration < 0.
Proof.
  assert (H : minDuration <= maxDuration <= maxDuration)
    by (unfold minDuration, maxDuration; lia).
  split; [exact H|].
  apply (proj2 (written_ttl_wraps maxDuration H)).
  unfold maxDuration, Second, Nanosecond; lia.
Defined.

(** ** Further properties on the reference store *)

Section MoreMemStoreFacts.

Variable codec : Codec.

Lemma live_later t t' e : t <= t' -> live t' e = true -> live t e = true.
Proof.
  unfold live. destruct (e_exp e) as [d|]; [|reflexivity].
  intros H L. apply Z.ltb_lt in L. apply Z.ltb_lt. lia.
Qed.

Lemma find_entry_later t t' k :
  forall es e,
    find_entry t k es = Some e -> t <= t' -> live t' e = true ->
    find_entry t' k es = Some e.
Proof.
  induction es as [|x es IH]; intros e H Ht L; cbn in *; [discriminate|].
  destruct (e_key x =? k)%string eqn:K; cbn [andb] in *; [|eauto].
  destruct (live t x) eqn:Lx.
  - inversion H; subst. rewrite L. reflexivity.
  - destruct (live t' x) eqn:Lx'; [|eauto].
    rewrite (live_later t t' x Ht Lx') in Lx. discriminate.
Qed.

Lemma find_entry_expired_same t k d :
  0 < d ->
  forall es,
    find_entry t k (expire_all t k d es)
    = option_map
        (fun e => {| e_key := e_key e; e_val := e_val e;
                     e_exp := Some (t + d) |})
        (find_entry t k es).
Proof.
  intros Hd. unfold expire_all. induction es as [|x es IH]; [reflexivity|].
  cbn [map find_entry].
  destruct ((e_key x =? k)%string && live t x) eqn:C.
  - cbn. apply andb_true_iff in C. destruct C as [Ck _]. rewrite Ck.
    unfold live. cbn. replace (t <? t + d) with true; [reflexivity|].
    symmetry. apply Z.ltb_lt. lia.
  - rewrite C. exact IH.
Qed.

Lemma find_entry_expired_other t k k' d :
  k' <> k ->
  forall es, find_entry t k' (expire_all t k d es) = find_entry t k' es.
Proof.
  intros Hk. unfold expire_all. induction es as [|x es IH]; [reflexivity|].
  cbn [map find_entry].
  destruct ((e_key x =? k)%string && live t x) eqn:C.
  - apply andb_true_iff in C. destruct C as [Ck _].
    apply String.eqb_eq in Ck. cbn [e_key].
    assert (N : (e_key x =? k')%string = false)
      by (apply String.eqb_neq; congruence).
    rewrite N. cbn [andb]. exact IH.
  - rewrite IH. reflexivity.
Qed.

Lemma find_entry_put_same t n :
  live t n = true ->
  forall es, find_entry t (e_key n) (put_entry n es) = Some n.
Proof.
  intros L. induction es as [|x es IH]; cbn.
  - rewrite String.eqb_refl, L. reflexivity.
  - destruct (e_key x =? e_key n)%string eqn:K; cbn.
    + rewrite String.eqb_refl, L. reflexivity.
    + rewrite K. cbn. exact IH.
Qed.

Lemma find_entry_put_other t n k' :
  k' <> e_key n ->
  forall es, find_entry t k' (put_entry n es) = find_entry t k' es.
Proof.
  intros Hk. induction es as [|x es IH]; cbn.
  - assert (N : (e_key n =? k')%string = false)
      by (apply String.eqb_neq; congruence).
    rewrite N. reflexivity.
  - destruct (e_key x =? e_key n)%string eqn:K; cbn.
    + apply String.eqb_eq in K.
      assert (N : (e_key n =? k')%string = false)
        by (apply String.eqb_neq; congruence).
      assert (N' : (e_key x =? k')%string = false)
        by (apply String.eqb_neq; congruence).
      rewrite N, N'. reflexivity.
    + rewrite IH. reflexivity.
Qed.

Lemma find_entry_deleted_same t k :
  forall es,
    find_entry t k (filter (fun e => negb (e_key e =? k)%string) es) = None.
Proof.
  induction es as [|x es IH]; [reflexivity|].
  cbn. destruct (e_key x =? k)%string eqn:K; cbn; [exact IH|].
  rewrite K. cbn. exact IH.
Qed.

Lemma find_entry_deleted_other t k k' :
  k' <> k ->
  forall es,
    find_entry t k' (filter (fun e => negb (e_key e =? k)%string) es)
    = find_entry t k' es.
Proof.
  intros Hk. induction es as [|x es IH]; [reflexivity|].
  cbn. destruct (e_key x =? k)%string eqn:K; cbn.
  - apply String.eqb_eq in K.
    assert (N : (e_key x =? k')%string = false)
      by (apply String.eqb_neq; congruence).
    rewrite N. cbn. exact IH.
  - rewrite IH. reflexivity.
Qed.

(** The renew-or-write rule on a store that does not fail, as a function
    of the entries. *)
Lemma register_mem_entries k value d (w : World MemStore) :
  faults (store w) = [] ->
  fst (register mem_client k value d w) = None /\
  now (store (snd (register mem_client k value d w))) = now (store w) /\
  faults (store (snd (register mem_client k value d w))) = [] /\
  tasks (snd (register mem_client k value d w)) = tasks w /\
  entries (store (snd (register mem_client k value d w)))
  = match find_entry (now (store w)) k (entries (store w)) with
    | Some old =>
        if 1 <? remaining (now (store w)) old
        then expire_all (now (store w)) k (written_ttl d) (entries (store w))
        else put_entry
               {| e_key := k; e_val := value;
                  e_exp := if 0 <? written_ttl d
                           then Some (now (store w) + written_ttl d)
                           else None |}
               (entries (store w))
    | None =>
        put_entry
          {| e_key := k; e_val := value;
             e_exp := if 0 <? written_ttl d
                      then Some (now (store w) + written_ttl d)
                      else None |}
          (entries (store w))
    end.
Proof.
  intros F. unfold register, doTTL. cbn [cTTL mem_client]. unfold mTTL.
  rewrite (take_fault_none _ F). fold (written_ttl d).
  destruct (find_entry (now (store w)) k (entries (store w))) as [old|] eqn:Hf.
  - unfold remaining. destruct (e_exp old) as [dl|].
    + destruct (1 <? dl - now (store w)).
      * unfold doExpire. cbn [cExpire mem_client store emit]. unfold mExpire.
        rewrite (take_fault_none _ F). cbn. auto.
      * unfold doSet. cbn [cSet mem_client store emit]. unfold mSet.
        rewrite (take_fault_none _ F). cbn. auto.
    + change (1 <? -1) with false. cbv iota.
      unfold doSet. cbn [cSet mem_client store emit]. unfold mSet.
      rewrite (take_fault_none _ F). cbn. auto.
  - change (1 <? -2) with false. cbv iota.
    unfold doSet. cbn [cSet mem_client store emit]. unfold mSet.
    rewrite (take_fault_none _ F). cbn. auto.
Qed.

Lemma register_mem_lookup k value d (w : World MemStore) :
  faults (store w) = [] ->
  0 < written_ttl d ->
  fst (register mem_client k value d w) = None /\
  find_entry (now (store w)) k
    (entries (store (snd (register mem_client k value d w))))
  = Some {| e_key := k;
            e_val := kept_value (now (store w))
                       (find_entry (now (store w)) k (entries (store w)))
                       value;
            e_exp := Some (now (store w) + written_ttl d) |} /\
  (forall k', k' <> k ->
     find_entry (now (store w)) k'
       (entries (store (snd (register mem_client k value d w))))
     = find_entry (now (store w)) k' (entries (store w))).
Proof.
  intros F Hd.
  destruct (register_mem_entries k value d w F) as (Hr & _ & _ & _ & He).
  split; [exact Hr|]. rewrite He. clear He Hr.
  set (t := now (store w)). set (es := entries (store w)).
  assert (P : (0 <? written_ttl d) = true) by (apply Z.ltb_lt; exact Hd).
  rewrite P.
  assert (L : forall v, live t {| e_key := k; e_val := v;
                                  e_exp := Some (t + written_ttl d) |} = true).
  { intros v. unfold live. cbn. apply Z.ltb_lt. lia. }
  unfold kept_value.
  destruct (find_entry t k es) as [old|] eqn:Hf.
  - destruct (1 <? remaining t old) eqn:R.
    + split.
      * rewrite (find_entry_expired_same t k _ Hd), Hf. cbn.
        destruct (find_entry_some _ _ _ _ Hf) as (_ & -> & _). reflexivity.
      * intros k' Hk. apply find_entry_expired_other. exact Hk.
    + split.
      * apply (find_entry_put_same t _ (L value)).
      * intros k' Hk. apply find_entry_put_other. exact Hk.
  - split.
    + apply (find_entry_put_same t _ (L value)).
    + intros k' Hk. apply find_entry_put_other. exact Hk.
Qed.


(** X8. On a store that does not fail, with a positive written TTL, the
    renew-or-write rule returns nil and leaves under the key a live
    record that expires the written TTL from now.  Its value is the one
    that was there when the record had more than one nanosecond left,
    and the new value when the key was absent, expired, without expiry or
    had at most one nanosecond left.  The records under other keys are
    not touched. *)
Theorem register_leaves_live_record k value d (w : World MemStore) :
  faults (store w) = [] ->
  0 < written_ttl d ->
  fst (register mem_client k value d w) = None /\
  find_entry (now (store w)) k
    (entries (store (snd (register mem_client k value d w))))
  = Some {| e_key := k;
            e_val := kept_value (now (store w))
                       (find_entry (now (store w)) k (entries (store w)))
                       value;
            e_exp := Some (now (store w) + written_ttl d) |} /\
  (forall k', k' <> k ->
     find_entry (now (store w)) k'
       (entries (store (snd (register mem_client k value d w))))
     = find_entry (now (store w)) k' (entries (store w))).
Proof.
  apply register_mem_lookup.
Qed.

Lemma written_ttl_exact d :
  minDuration <= d <= maxDuration - 2 * Second ->
  written_ttl d = d + 2 * Second.
Proof.
  unfold minDuration, maxDuration, written_ttl, dur_add, dur_mul, wrap64,
    Second, Nanosecond.
  intros Hd.
  change ((2 * (1000000000 * 1) + 2 ^ 63) mod 2 ^ 64 - 2 ^ 63)
    with 2000000000.
  rewrite Z.mod_small; lia.
Qed.

Lemma entry_eta e :
  {| e_key := e_key e; e_val := e_val e; e_exp := e_exp e |} = e.
Proof. destruct e; reflexivity. Qed.

(** X9. The heartbeat keeps a record alive.  On a store that does not
    fail, take a record that expires the configured TTL plus two seconds
    from now, as the renew-or-write rule leaves it, and let the renewal
    goroutine run on a ticker of period the configured TTL.  After any
    number of ticks the record is there with the value it had and again
    the TTL plus two seconds to live, and it is still alive when the next
    tick comes: each renewal is an Expire, the value is never
    rewritten. *)
Theorem heartbeat_keeps_record_alive t n :
  forall e (w : World MemStore),
    faults (store w) = [] ->
    0 < rn_ttl t <= maxDuration - 2 * Second ->
    find_entry (now (store w)) (rn_key t) (entries (store w)) = Some e ->
    e_exp e = Some (now (store w) + rn_ttl t + 2 * Second) ->
    now (store (beats t n w)) = now (store w) + Z.of_nat n * rn_ttl t /\
    find_entry (now (store (beats t n w))) (rn_key t)
      (entries (store (beats t n w)))
    = Some {| e_key := rn_key t; e_val := e_val e;
              e_exp := Some (now (store (beats t n w))
                             + rn_ttl t + 2 * Second) |} /\
    find_entry (now (store (beats t n w)) + rn_ttl t) (rn_key t)
      (entries (store (beats t n w)))
    = Some {| e_key := rn_key t; e_val := e_val e;
              e_exp := Some (now (store (beats t n w))
                             + rn_ttl t + 2 * Second) |}.
Proof.
  assert (S2 : 0 < 2 * Second) by (unfold Second, Nanosecond; lia).
  induction n as [|n IH]; intros e w F Ht Hf He.
  - cbn [beats]. rewrite Z.mul_0_l, Z.add_0_r.
    destruct (find_entry_some _ _ _ _ Hf) as (_ & Hk & _).
    rewrite <- Hk, <- He, entry_eta.
    split; [reflexivity|]. split; [rewrite Hk; exact Hf|].
    rewrite Hk. apply (find_entry_later _ _ _ _ _ Hf); [lia|].
    unfold live. rewrite He. apply Z.ltb_lt. lia.
  - cbn [beats renewal_step snd].
    set (wa := advance_world (rn_ttl t) w).
    assert (Fa : faults (store wa) = []) by exact F.
    assert (W : written_ttl (rn_ttl t) = rn_ttl t + 2 * Second).
    { apply written_ttl_exact. unfold minDuration. lia. }
    assert (Hfa : find_entry (now (store wa)) (rn_key t) (entries (store wa))
                  = Some e).
    { apply (find_entry_later _ _ _ _ _ Hf); [cbn; lia|].
      unfold live. rewrite He. apply Z.ltb_lt. cbn. lia. }
    destruct (register_mem_lookup (rn_key t) (rn_value t) (rn_ttl t) wa Fa)
      as (_ & Hl & _); [lia|].
    destruct (register_mem_entries (rn_key t) (rn_value t) (rn_ttl t) wa Fa)
      as (_ & Hn & F1 & _ & _).
    set (w1 := snd (register mem_client (rn_key t) (rn_value t) (rn_ttl t) wa))
      in *.
    rewrite Hfa in Hl. unfold kept_value, remaining in Hl. rewrite He in Hl.
    replace (1 <? now (store w) + rn_ttl t + 2 * Second - now (store wa))
      with true in Hl
      by (symmetry; apply Z.ltb_lt; cbn; lia).
    rewrite <- Hn, W in Hl.
    destruct (IH _ w1 F1 Ht Hl) as (In1 & In2 & In3).
    { cbn. f_equal. lia. }
    cbn [e_val] in *.
    split; [rewrite In1, Hn; unfold wa; cbn [advance_world advance store now]; lia|]. split; assumption.
Qed.

Lemma Register_mem r service value (w : World MemStore) :
  faults (store w) = [] ->
  MarshalToString codec service = Ok value ->
  Register mem_client codec r service w
  = (None,
     spawn (mkRenewal
              (keyFormat (namespace (opts r)) (Name service) (ID service))
              value (ttl (opts r)))
       (snd (register mem_client
               (keyFormat (namespace (opts r)) (Name service) (ID service))
               value (ttl (opts r)) w))).
Proof.
  intros F Hm. unfold Register. rewrite Hm.
  destruct (register_mem_entries
              (keyFormat (namespace (opts r)) (Name service) (ID service))
              value (ttl (opts r)) w F) as (Hr & _).
  destruct (register mem_client _ value (ttl (opts r)) w) as [st w1].
  cbn in Hr. subst st. reflexivity.
Qed.

Lemma in_put_entry n x :
  forall es, In x (put_entry n es) -> x = n \/ In x es.
Proof.
  induction es as [|y es IH]; cbn.
  - intros [<-|[]]. left; reflexivity.
  - destruct (e_key y =? e_key n)%string.
    + intros [<-|H]; [left; reflexivity|right; right; exact H].
    + intros [<-|H]; [right; left; reflexivity|].
      destruct (IH H) as [->|H']; [left; reflexivity|right; right; exact H'].
Qed.

(** X10. Register, then watch.  On a store that does not fail, for an
    instance that the codec writes and reads back, whose key holds no
    live record, with a positive written TTL and the other live records
    under the watch pattern decodable: Register returns nil and the next
    call of Next of a watcher on the instance's Name returns a list that
    holds the instance. *)
Theorem Register_then_Next_finds_instance r service value
    (w : World MemStore) :
  faults (store w) = [] ->
  MarshalToString codec service = Ok value ->
  UnmarshalFromString codec value = Ok service ->
  0 < written_ttl (ttl (opts r)) ->
  find_entry (now (store w))
    (keyFormat (namespace (opts r)) (Name service) (ID service))
    (entries (store w)) = None ->
  (forall x, In x (entries (store w)) ->
             matching (now (store w))
               (watcherFormat (namespace (opts r)) (Name service) ++ "*")%string
               x = true ->
             exists y, UnmarshalFromString codec (e_val x) = Ok y) ->
  fst (Register mem_client codec r service w) = None /\
  exists out w',
    Next mem_client codec
      (S (length (entries
                    (store (snd (Register mem_client codec r service w))))))
      (fst (Watch r (Name service))) WakeTick
      (snd (Register mem_client codec r service w))
    = Some ((Some out, None), w') /\
    In service out.
Proof.
  intros F Hm Hu Hd Hfresh Hdec.
  rewrite (Register_mem r service value w F Hm). cbn [fst snd].
  split; [reflexivity|].
  set (k := keyFormat (namespace (opts r)) (Name service) (ID service)) in *.
  destruct (register_mem_entries k value (ttl (opts r)) w F)
    as (_ & Hn & F1 & _ & He).
  destruct (register_mem_lookup k value (ttl (opts r)) w F Hd) as (_ & Hl & _).
  rewrite Hfresh in He, Hl. unfold kept_value in Hl.
  set (w1 := snd (register mem_client k value (ttl (opts r)) w)) in *.
  cbn [Next Watch fst key newWatcher].
  set (ws := spawn (mkRenewal k value (ttl (opts r))) w1).
  change (store ws) with (store w1).
  apply (services_mem_covers_prefix codec
           (watcherFormat (namespace (opts r)) (Name service))
           ("/" ++ ID service)%string ws
           {| e_key := k; e_val := value;
              e_exp := Some (now (store w) + written_ttl (ttl (opts r))) |}
           service).
  - exact F1.
  - change (store ws) with (store w1). rewrite Hn, He.
    intros x Hin Hx. apply in_put_entry in Hin. destruct Hin as [->|Hin].
    + exists service. exact Hu.
    + apply (Hdec x Hin Hx).
  - change (store ws) with (store w1). rewrite Hn.
    replace (watcherFormat (namespace (opts r)) (Name service)
               ++ "/" ++ ID service)%string with k; [exact Hl|].
    unfold k, keyFormat, watcherFormat. rewrite string_app_assoc.
    reflexivity.
  - exact Hu.
Qed.

(** X11. On a store that does not fail Deregister returns nil, no record
    is left under the key namespace/Name/ID, alive or not, the records
    under every other key are as before, and the ticker is stopped and
    the context cancelled. *)
Theorem Deregister_removes_record r service (w : World MemStore) :
  faults (store w) = [] ->
  fst (Deregister mem_client r service w) = None /\
  (forall t,
     find_entry t (keyFormat (namespace (opts r)) (Name service) (ID service))
       (entries (store (snd (Deregister mem_client r service w)))) = None) /\
  (forall t k',
     k' <> keyFormat (namespace (opts r)) (Name service) (ID service) ->
     find_entry t k'
       (entries (store (snd (Deregister mem_client r service w))))
     = find_entry t k' (entries (store w))) /\
  ticker_stopped (snd (Deregister mem_client r service w)) = true /\
  ctx_cancelled (snd (Deregister mem_client r service w)) = true.
Proof.
  intros F. unfold Deregister, doDel. cbn [cDel mem_client store]. unfold mDel.
  rewrite (take_fault_none _ F). cbn.
  split; [reflexivity|]. split; [intros t; apply find_entry_deleted_same|].
  split; [intros t k' Hk; apply find_entry_deleted_other; exact Hk|].
  split; reflexivity.
Qed.

(** X12. Registering again does not rewrite a live record.  On a store
    that does not fail, with a written TTL above one nanosecond, after a
    first Register a second Register of an instance with the same Name
    and ID, whatever its other fields and its encoding, returns nil and
    leaves under the key the very record the first one left, value
    included; it starts a second renewal goroutine, closed over the second
    encoding, beside the first. *)
Theorem Register_again_keeps_value r s1 s2 v1 v2 (w : World MemStore) :
  faults (store w) = [] ->
  Name s1 = Name s2 -> ID s1 = ID s2 ->
  MarshalToString codec s1 = Ok v1 ->
  MarshalToString codec s2 = Ok v2 ->
  1 < written_ttl (ttl (opts r)) ->
  fst (Register mem_client codec r s2
         (snd (Register mem_client codec r s1 w))) = None /\
  find_entry (now (store w))
    (keyFormat (namespace (opts r)) (Name s1) (ID s1))
    (entries (store (snd (Register mem_client codec r s2
                            (snd (Register mem_client codec r s1 w))))))
  = find_entry (now (store w))
      (keyFormat (namespace (opts r)) (Name s1) (ID s1))
      (entries (store (snd (Register mem_client codec r s1 w)))) /\
  tasks (snd (Register mem_client codec r s2
                (snd (Register mem_client codec r s1 w))))
  = tasks w ++
      [mkRenewal (keyFormat (namespace (opts r)) (Name s1) (ID s1)) v1
         (ttl (opts r));
       mkRenewal (keyFormat (namespace (opts r)) (Name s1) (ID s1)) v2
         (ttl (opts r))].
Proof.
  intros F Hn Hi Hm1 Hm2 Hd.
  rewrite (Register_mem r s1 v1 w F Hm1). cbn [snd].
  set (k := keyFormat (namespace (opts r)) (Name s1) (ID s1)).
  destruct (register_mem_entries k v1 (ttl (opts r)) w F)
    as (_ & Hn1 & F1 & Hk1 & _).
  destruct (register_mem_lookup k v1 (ttl (opts r)) w F) as (_ & Hl1 & _);
    [lia|].
  set (w1 := snd (register mem_client k v1 (ttl (opts r)) w)) in *.
  set (ws := spawn (mkRenewal k v1 (ttl (opts r))) w1).
  assert (Fs : faults (store ws) = []) by exact F1.
  rewrite (Register_mem r s2 v2 ws Fs Hm2). cbn [fst snd].
  rewrite <- Hn, <- Hi. fold k.
  destruct (register_mem_entries k v2 (ttl (opts r)) ws Fs)
    as (_ & _ & _ & Hk2 & _).
  destruct (register_mem_lookup k v2 (ttl (opts r)) ws Fs) as (_ & Hl2 & _);
    [lia|].
  change (store ws) with (store w1) in Hl2. rewrite Hn1 in Hl2.
  split; [reflexivity|]. split.
  - cbn [store spawn]. rewrite Hl2. fold ws.
    change (store ws) with (store w1).
    rewrite Hl1. unfold kept_value at 1, remaining. cbn [e_exp e_val].
    replace (1 <? now (store w) + written_ttl (ttl (opts r)) - now (store w))
      with true by (symmetry; apply Z.ltb_lt; lia).
    reflexivity.
  - cbn [tasks spawn]. rewrite Hk2. unfold ws. cbn [tasks spawn].
    fold w1. rewrite Hk1, <- app_assoc. reflexivity.
Qed.

Local Open Scope nat_scope.

Lemma doScan_mem_cases c pat n (w : World MemStore) :
  (exists e w1, doScan mem_client c pat n w = (Err e, w1)) \/
  (exists ks nxt w1,
     doScan mem_client c pat n w = (Ok (ks, N.of_nat nxt), w1) /\
     scan_walk (now (store w)) pat
       (skipn (N.to_nat c) (entries (store w))) (N.to_nat c) (Z.to_nat n)
     = (ks, nxt) /\
     entries (store w1) = entries (store w) /\
     now (store w1) = now (store w)).
Proof.
  unfold doScan. cbn [cScan mem_client]. unfold mScan, take_fault.
  destruct (faults (store w)) as [|[e|] fs].
  - right. destruct (scan_walk _ _ _ _ _) as [ks nxt].
    exists ks, nxt. eexists. repeat split.
  - left. eexists _, _. reflexivity.
  - right. cbn [now entries].
    destruct (scan_walk _ _ _ _ _) as [ks nxt].
    exists ks, nxt. eexists. repeat split.
Qed.

Lemma doMGet_mem_keeps ks (w : World MemStore) :
  entries (store (snd (doMGet mem_client ks w))) = entries (store w) /\
  now (store (snd (doMGet mem_client ks w))) = now (store w).
Proof.
  unfold doMGet. cbn [cMGet mem_client]. unfold mMGet, take_fault.
  destruct (faults (store w)) as [|[e|] fs]; split; reflexivity.
Qed.

Lemma mem_loop_returns fuel :
  forall pat pos items (w : World MemStore),
    length (entries (store w)) - pos < 20 * fuel ->
    exists r w',
      services_loop mem_client codec fuel pat (N.of_nat pos) items w
      = Some (r, w').
Proof.
  induction fuel as [|fuel IH]; intros pat pos items w Hfuel; [lia|].
  cbn [services_loop].
  destruct (doScan_mem_cases (N.of_nat pos) pat defaultScan w)
    as [(e & w1 & ->)|(ks & nxt & w1 & -> & W & He & _)]; [eauto|].
  rewrite Nat2N.id in W. change (Z.to_nat defaultScan) with 20 in W.
  apply scan_walk_spec in W. destruct W as (n & Hks & Hn).
  destruct ks as [|k ks']; cbn [length Nat.eqb]; [eauto|].
  destruct (doMGet_mem_keeps (k :: ks') w1) as [He2 _].
  destruct (doMGet mem_client (k :: ks') w1) as [rm w2]. cbn [snd] in He2.
  destruct rm as [res|err]; [|eauto].
  destruct (decode_values codec res items) as [items'|err]; [|eauto].
  destruct (N.eqb_spec (N.of_nat nxt) 0) as [Hz|Hz]; [eauto|].
  destruct Hn as [[_ ->]|(Hlt & -> & Hl)]; [contradiction|].
  apply IH. rewrite He2, He.
  assert (20 <= n).
  { rewrite Hks, length_map in Hl.
    pose proof (filter_length_le (matching (now (store w)) pat)
                  (firstn n (skipn pos (entries (store w))))) as L1.
    pose proof (firstn_le_length n (skipn pos (entries (store w)))) as L2.
    lia. }
  rewrite length_skipn in Hlt. lia.
Qed.

(** X13. On the reference store an enumeration always returns, whatever
    the store holds and whichever of its commands fail: with n entries in
    the store it takes at most n/20 + 1 rounds of the loop. *)
Theorem services_returns_within_bound key (w : World MemStore) :
  exists r w',
    services mem_client codec (S (length (entries (store w)) / 20)) key w
    = Some (r, w').
Proof.
  unfold services. apply (mem_loop_returns _ _ 0 [] w).
  rewrite Nat.sub_0_r. apply Nat.mul_succ_div_gt. discriminate.
Qed.

Lemma find_entry_unique t :
  forall es e,
    NoDup (map e_key es) -> In e es -> live t e = true ->
    find_entry t (e_key e) es = Some e.
Proof.
  induction es as [|x es IH]; intros e Hnd Hin L; [contradiction|].
  cbn in Hnd. inversion Hnd as [|? ? Hx Hnd']; subst.
  cbn. destruct Hin as [->|Hin].
  - rewrite String.eqb_refl, L. reflexivity.
  - assert (N : (e_key x =? e_key e)%string = false).
    { apply String.eqb_neq. intros E. apply Hx. rewrite E.
      apply in_map. exact Hin. }
    rewrite N. cbn. apply IH; assumption.
Qed.

Lemma present_strings_values (l : list entry) :
  present_strings (map (fun e => ReplyString (e_val e)) l) = map e_val l.
Proof.
  induction l as [|e l IH]; [reflexivity|]. cbn. rewrite IH. reflexivity.
Qed.

Lemma lookup_batch t all (l : list entry) :
  NoDup (map e_key all) ->
  (forall e, In e l -> In e all /\ live t e = true) ->
  map (lookup_reply t all) (map e_key l)
  = map (fun e => ReplyString (e_val e)) l.
Proof.
  intros Hnd H. rewrite map_map. apply map_ext_in. intros e Hin.
  destruct (H e Hin) as [Ha L]. unfold lookup_reply.
  rewrite (find_entry_unique t all e Hnd Ha L). reflexivity.
Qed.

Lemma in_skipn {A} (x : A) n l : In x (skipn n l) -> In x l.
Proof.
  intros H. rewrite <- (firstn_skipn n l). apply in_or_app. right. exact H.
Qed.

Lemma in_firstn {A} (x : A) n l : In x (firstn n l) -> In x l.
Proof.
  intros H. rewrite <- (firstn_skipn n l). apply in_or_app. left. exact H.
Qed.

(** On a store that does not fail and holds one entry per key, the list
    the loop returns is what was gathered followed by the decoding of the
    values of the live entries under the pattern from the cursor on, in
    the store's order. *)
Lemma mem_loop_exact fuel :
  forall pat pos items (w : World MemStore) out w',
    faults (store w) = [] ->
    NoDup (map e_key (entries (store w))) ->
    services_loop mem_client codec fuel pat (N.of_nat pos) items w
    = Some ((Some out, None), w') ->
    exists more,
      out = items ++ more /\
      decoded codec
        (map e_val
           (filter (matching (now (store w)) pat)
              (skipn pos (entries (store w)))))
        more.
Proof.
  induction fuel as [|fuel IH]; intros pat pos items w out w' F Hnd H;
    [discriminate|].
  cbn [services_loop] in H. rewrite (doScan_mem _ _ _ _ F), Nat2N.id in H.
  change (Z.to_nat defaultScan) with 20 in H.
  set (t := now (store w)) in *. set (all := entries (store w)) in *.
  set (es := skipn pos all) in *.
  destruct (scan_walk t pat es pos 20) as [ks nxt] eqn:W.
  apply scan_walk_spec in W. destruct W as (n & Hks & Hn).
  set (batch := filter (matching t pat) (firstn n es)) in *.
  assert (Hb : forall e, In e batch -> In e all /\ live t e = true).
  { intros e Hin. apply filter_In in Hin. destruct Hin as [Hin Hm].
    split; [apply (in_skipn e pos), (in_firstn e n); exact Hin|].
    unfold matching in Hm. apply andb_true_iff in Hm. tauto. }
  destruct ks as [|k ks'].
  - cbn [length Nat.eqb] in H. inversion H; subst out w'.
    exists []. rewrite app_nil_r. split; [reflexivity|].
    destruct Hn as [[-> _]|(_ & _ & Hl)]; [|discriminate].
    unfold batch in Hks. rewrite firstn_all in Hks.
    symmetry in Hks. apply map_eq_nil in Hks. rewrite Hks. constructor.
  - cbn [length Nat.eqb] in H.
    set (w1 := emit _ _ w) in H.
    assert (F1 : faults (store w1) = []) by exact F.
    rewrite (doMGet_mem _ _ F1) in H. change (store w1) with (store w) in H.
    fold t all in H. rewrite Hks, (lookup_batch t all batch Hnd Hb) in H.
    destruct (decode_values codec _ items) as [items'|err] eqn:D;
      [|discriminate].
    destruct (decode_values_ok codec _ _ _ D) as (m0 & -> & Hd0).
    rewrite present_strings_values in Hd0.
    assert (Hn20 : 20 <= n \/ n = length es).
    { destruct Hn as [[-> _]|(_ & _ & Hl)]; [right; reflexivity|left].
      rewrite Hks, length_map in Hl.
      pose proof (filter_length_le (matching t pat) (firstn n es)) as L1.
      pose proof (firstn_le_length n es) as L2. fold batch in L1. lia. }
    destruct (N.eqb_spec (N.of_nat nxt) 0) as [Hz|Hz].
    + inversion H; subst out w'. exists m0. split; [reflexivity|].
      destruct Hn as [[-> _]|(Hlt & -> & _)]; [|lia].
      unfold batch in Hd0. rewrite firstn_all in Hd0. exact Hd0.
    + destruct Hn as [[_ ->]|(Hlt & -> & Hl)]; [contradiction|].
      apply IH in H; [|exact F|exact Hnd].
      destruct H as (m1 & -> & Hd1).
      exists (m0 ++ m1). rewrite <- app_assoc. split; [reflexivity|].
      cbn [store emit] in Hd1. fold t all in Hd1.
      rewrite <- (firstn_skipn n es), filter_app, map_app.
      apply Forall2_app; [exact Hd0|].
      unfold es at 1. rewrite skipn_skipn, Nat.add_comm. exact Hd1.
Qed.

Lemma glob_star_free p :
  star_free p = true ->
  forall k, glob_match (p ++ "*")%string k = String.prefix p k.
Proof.
  induction p as [|c p IH]; intros Hs k.
  - destruct k; exact (glob_prefix_star EmptyString _).
  - cbn in Hs. apply andb_true_iff in Hs. destruct Hs as [Hc Hs].
    apply negb_true_iff in Hc.
    destruct k as [|d k];
      cbn [String.append glob_match String.prefix]; rewrite Hc;
      [reflexivity|].
    destruct (ascii_dec c d) as [->|Hn].
    + rewrite Ascii.eqb_refl. apply (IH Hs).
    + apply Ascii.eqb_neq in Hn. rewrite Hn. reflexivity.
Qed.

(** X14. Next returns exactly the live records under its prefix.  On a
    store that does not fail and holds one entry per key, when the live
    records under the pattern all decode, Next of a watcher on a name
    returns a list that is, in the store's order, the decoding of the
    value of each live record whose key matches namespace/name followed
    by a star, each once and nothing else.  When namespace/name holds no
    star, matching is having namespace/name as a prefix. *)
Theorem Next_returns_the_live_records r name (w : World MemStore) :
  faults (store w) = [] ->
  NoDup (map e_key (entries (store w))) ->
  (forall x, In x (entries (store w)) ->
             matching (now (store w))
               (watcherFormat (namespace (opts r)) name ++ "*")%string x
             = true ->
             exists y, UnmarshalFromString codec (e_val x) = Ok y) ->
  (exists out w',
     Next mem_client codec (S (length (entries (store w))))
       (fst (Watch r name)) WakeTick w
     = Some ((Some out, None), w') /\
     decoded codec
       (map e_val
          (filter
             (matching (now (store w))
                (watcherFormat (namespace (opts r)) name ++ "*")%string)
             (entries (store w))))
       out) /\
  (star_free (watcherFormat (namespace (opts r)) name) = true ->
   forall t e,
     matching t (watcherFormat (namespace (opts r)) name ++ "*")%string e
     = live t e
       && String.prefix (watcherFormat (namespace (opts r)) name) (e_key e)).
Proof.
  intros F Hnd Hdec. split.
  - cbn [Next Watch fst key newWatcher]. unfold services.
    destruct (mem_loop_total codec (S (length (entries (store w))))
                (watcherFormat (namespace (opts r)) name ++ "*")%string
                0 [] w F Hdec)
      as (out & w' & E & _); [lia|].
    exists out, w'. split; [exact E|].
    destruct (mem_loop_exact _ _ 0 [] w out w' F Hnd E) as (more & -> & Hd).
    exact Hd.
  - intros Hs t e. unfold matching. rewrite (glob_star_free _ Hs).
    reflexivity.
Qed.

End MoreMemStoreFacts.

(** ** The hypotheses of the properties above, met *)

Lemma Next_only_reads_witness :
  Next mem_client json_codec 2 (fst (Watch ms_registry "orders")) WakeTick
    world25
  = Some (fst result25, snd result25) /\
  exists evs,
    trace (snd result25) = trace world25 ++ evs /\
    Forall is_read evs /\
    ticker_stopped (snd result25) = ticker_stopped world25 /\
    ctx_cancelled (snd result25) = ctx_cancelled world25 /\
    tasks (snd result25) = tasks world25 /\
    (forall cause, WakeTick = WakeDone cause ->
                   evs = [] /\ fst result25 = (None, Some cause) /\
                   snd result25 = world25).
Proof.
  assert (H : Next mem_client json_codec 2 (fst (Watch ms_registry "orders"))
                WakeTick world25
              = Some (fst result25, snd result25))
    by (vm_compute; reflexivity).
  split; [exact H|].
  exact (Next_only_reads mem_client json_codec 2%nat
           (fst (Watch ms_registry "orders")) WakeTick world25 _ _ H).
Defined.

Lemma services_fetches_each_batch_witness :
  services scripted_client json_codec 3 "/ms/orders" (init_world race_script)
  = Some (fst race_result, snd race_result) /\
  exists evs,
    trace (snd race_result) = trace (init_world race_script) ++ evs /\
    batches_fetched evs.
Proof.
  assert (H : services scripted_client json_codec 3 "/ms/orders"
                (init_world race_script)
              = Some (fst race_result, snd race_result))
    by (vm_compute; reflexivity).
  split; [exact H|].
  exact (services_fetches_each_batch scripted_client json_codec 3%nat
           "/ms/orders"%string (init_world race_script) _ _ H).
Defined.

Lemma register_leaves_live_record_witness :
  faults (store (init_world one_second_left)) = [] /\
  0 < written_ttl (5 * Second) /\
  fst (register mem_client "/ms/orders/i1" "new" (5 * Second)
         (init_world one_second_left)) = None /\
  find_entry (now (store (init_world one_second_left))) "/ms/orders/i1"
    (entries (store (snd (register mem_client "/ms/orders/i1" "new"
                            (5 * Second) (init_world one_second_left)))))
  = Some {| e_key := "/ms/orders/i1";
            e_val := kept_value (now (store (init_world one_second_left)))
                       (find_entry (now (store (init_world one_second_left)))
                          "/ms/orders/i1"
                          (entries (store (init_world one_second_left))))
                       "new";
            e_exp := Some (now (store (init_world one_second_left))
                           + written_ttl (5 * Second)) |} /\
  (forall k', k' <> "/ms/orders/i1"%string ->
     find_entry (now (store (init_world one_second_left))) k'
       (entries (store (snd (register mem_client "/ms/orders/i1" "new"
                               (5 * Second) (init_world one_second_left)))))
     = find_entry (now (store (init_world one_second_left))) k'
         (entries (store (init_world one_second_left)))).
Proof.
  assert (H1 : faults (store (init_world one_second_left)) = [])
    by reflexivity.
  assert (H2 : 0 < written_ttl (5 * Second)) by (vm_compute; reflexivity).
  split; [exact H1|]. split; [exact H2|].
  exact (register_leaves_live_record "/ms/orders/i1"%string "new"%string
           (5 * Second) (init_world one_second_left) H1 H2).
Defined.

Lemma heartbeat_keeps_record_alive_witness :
  faults (store registered_world) = [] /\
  0 < rn_ttl renew_i1 <= maxDuration - 2 * Second /\
  find_entry (now (store registered_world)) (rn_key renew_i1)
    (entries (store registered_world)) = Some record_i1 /\
  e_exp record_i1
  = Some (now (store registered_world) + rn_ttl renew_i1 + 2 * Second) /\
  now (store (beats renew_i1 3 registered_world))
  = now (store registered_world) + Z.of_nat 3 * rn_ttl renew_i1 /\
  find_entry (now (store (beats renew_i1 3 registered_world)))
    (rn_key renew_i1) (entries (store (beats renew_i1 3 registered_world)))
  = Some {| e_key := rn_key renew_i1; e_val := e_val record_i1;
            e_exp := Some (now (store (beats renew_i1 3 registered_world))
                           + rn_ttl renew_i1 + 2 * Second) |} /\
  find_entry (now (store (beats renew_i1 3 registered_world))
              + rn_ttl renew_i1)
    (rn_key renew_i1) (entries (store (beats renew_i1 3 registered_world)))
  = Some {| e_key := rn_key renew_i1; e_val := e_val record_i1;
            e_exp := Some (now (store (beats renew_i1 3 registered_world))
                           + rn_ttl renew_i1 + 2 * Second) |}.
Proof.
  assert (H1 : faults (store registered_world) = []) by reflexivity.
  assert (H2 : 0 < rn_ttl renew_i1 <= maxDuration - 2 * Second)
    by (vm_compute; split; [reflexivity|discriminate]).
  assert (H3 : find_entry (now (store registered_world)) (rn_key renew_i1)
                 (entries (store registered_world)) = Some record_i1)
    by (vm_compute; reflexivity).
  assert (H4 : e_exp record_i1
               = Some (now (store registered_world) + rn_ttl renew_i1
                       + 2 * Second))
    by (vm_compute; reflexivity).
  split; [exact H1|]. split; [exact H2|]. split; [exact H3|].
  split; [exact H4|].
  exact (heartbeat_keeps_record_alive renew_i1 3 record_i1 registered_world
           H1 H2 H3 H4).
Defined.

Lemma Register_then_Next_finds_instance_witness :
  faults (store (init_world empty_store)) = [] /\
  MarshalToString json_codec i1 = Ok (json_marshal i1) /\
  UnmarshalFromString json_codec (json_marshal i1) = Ok i1 /\
  0 < written_ttl (ttl (opts ms_registry)) /\
  find_entry (now (store (init_world empty_store)))
    (keyFormat (namespace (opts ms_registry)) (Name i1) (ID i1))
    (entries (store (init_world empty_store))) = None /\
  (forall x, In x (entries (store (init_world empty_store))) ->
             matching (now (store (init_world empty_store)))
               (watcherFormat (namespace (opts ms_registry)) (Name i1) ++ "*")%string
               x = true ->
             exists y, UnmarshalFromString json_codec (e_val x) = Ok y) /\
  fst (Register mem_client json_codec ms_registry i1 (init_world empty_store))
  = None /\
  exists out w',
    Next mem_client json_codec
      (S (length (entries
                    (store (snd (Register mem_client json_codec ms_registry i1
                                   (init_world empty_store)))))))
      (fst (Watch ms_registry (Name i1))) WakeTick
      (snd (Register mem_client json_codec ms_registry i1
              (init_world empty_store)))
    = Some ((Some out, None), w') /\
    In i1 out.
Proof.
  assert (H1 : faults (store (init_world empty_store)) = []) by reflexivity.
  assert (H2 : MarshalToString json_codec i1 = Ok (json_marshal i1))
    by reflexivity.
  assert (H3 : UnmarshalFromString json_codec (json_marshal i1) = Ok i1)
    by (vm_compute; reflexivity).
  assert (H4 : 0 < written_ttl (ttl (opts ms_registry)))
    by (vm_compute; reflexivity).
  assert (H5 : find_entry (now (store (init_world empty_store)))
                 (keyFormat (namespace (opts ms_registry)) (Name i1) (ID i1))
                 (entries (store (init_world empty_store))) = None)
    by reflexivity.
  assert (H6 : forall x, In x (entries (store (init_world empty_store))) ->
             matching (now (store (init_world empty_store)))
               (watcherFormat (namespace (opts ms_registry)) (Name i1) ++ "*")%string
               x = true ->
             exists y, UnmarshalFromString json_codec (e_val x) = Ok y)
    by (intros x []).
  split; [exact H1|]. split; [exact H2|]. split; [exact H3|].
  split; [exact H4|]. split; [exact H5|]. split; [exact H6|].
  exact (Register_then_Next_finds_instance json_codec ms_registry i1
           (json_marshal i1) (init_world empty_store) H1 H2 H3 H4 H5 H6).
Defined.

Lemma Deregister_removes_record_witness :
  faults (store registered_world) = [] /\
  fst (Deregister mem_client ms_registry i1 registered_world) = None /\
  (forall t,
     find_entry t
       (keyFormat (namespace (opts ms_registry)) (Name i1) (ID i1))
       (entries (store (snd (Deregister mem_client ms_registry i1
                               registered_world)))) = None) /\
  (forall t k',
     k' <> keyFormat (namespace (opts ms_registry)) (Name i1) (ID i1) ->
     find_entry t k'
       (entries (store (snd (Deregister mem_client ms_registry i1
                               registered_world))))
     = find_entry t k' (entries (store registered_world))) /\
  ticker_stopped (snd (Deregister mem_client ms_registry i1 registered_world))
  = true /\
  ctx_cancelled (snd (Deregister mem_client ms_registry i1 registered_world))
  = true.
Proof.
  assert (H1 : faults (store registered_world) = []) by reflexivity.
  split; [exact H1|].
  exact (Deregister_removes_record ms_registry i1 registered_world H1).
Defined.

Lemma Register_again_keeps_value_witness :
  faults (store (init_world empty_store)) = [] /\
  Name i1 = Name i1_moved /\ ID i1 = ID i1_moved /\
  MarshalToString json_codec i1 = Ok (json_marshal i1) /\
  MarshalToString json_codec i1_moved = Ok (json_marshal i1_moved) /\
  1 < written_ttl (ttl (opts ms_registry)) /\
  fst (Register mem_client json_codec ms_registry i1_moved
         (snd (Register mem_client json_codec ms_registry i1
                 (init_world empty_store)))) = None /\
  find_entry (now (store (init_world empty_store)))
    (keyFormat (namespace (opts ms_registry)) (Name i1) (ID i1))
    (entries (store (snd (Register mem_client json_codec ms_registry i1_moved
                            (snd (Register mem_client json_codec ms_registry
                                    i1 (init_world empty_store)))))))
  = find_entry (now (store (init_world empty_store)))
      (keyFormat (namespace (opts ms_registry)) (Name i1) (ID i1))
      (entries (store (snd (Register mem_client json_codec ms_registry i1
                              (init_world empty_store))))) /\
  tasks (snd (Register mem_client json_codec ms_registry i1_moved
                (snd (Register mem_client json_codec ms_registry i1
                        (init_world empty_store)))))
  = tasks (init_world empty_store) ++
      [mkRenewal (keyFormat (namespace (opts ms_registry)) (Name i1) (ID i1))
         (json_marshal i1) (ttl (opts ms_registry));
       mkRenewal (keyFormat (namespace (opts ms_registry)) (Name i1) (ID i1))
         (json_marshal i1_moved) (ttl (opts ms_registry))].
Proof.
  assert (H1 : faults (store (init_world empty_store)) = []) by reflexivity.
  assert (H2 : Name i1 = Name i1_moved) by reflexivity.
  assert (H3 : ID i1 = ID i1_moved) by reflexivity.
  assert (H4 : MarshalToString json_codec i1 = Ok (json_marshal i1))
    by reflexivity.
  assert (H5 : MarshalToString json_codec i1_moved
               = Ok (json_marshal i1_moved)) by reflexivity.
  assert (H6 : 1 < written_ttl (ttl (opts ms_registry)))
    by (vm_compute; reflexivity).
  split; [exact H1|]. split; [exact H2|]. split; [exact H3|].
  split; [exact H4|]. split; [exact H5|]. split; [exact H6|].
  exact (Register_again_keeps_value json_codec ms_registry i1 i1_moved
           (json_marshal i1) (json_marshal i1_moved) (init_world empty_store)
           H1 H2 H3 H4 H5 H6).
Defined.

Lemma Next_returns_the_live_records_witness :
  faults (store world_v2) = [] /\
  NoDup (map e_key (entries (store world_v2))) /\
  (forall x, In x (entries (store world_v2)) ->
             matching (now (store world_v2))
               (watcherFormat (namespace (opts ms_registry)) "orders" ++ "*")%string
               x = true ->
             exists y, UnmarshalFromString json_codec (e_val x) = Ok y) /\
  (exists out w',
     Next mem_client json_codec (S (length (entries (store world_v2))))
       (fst (Watch ms_registry "orders")) WakeTick world_v2
     = Some ((Some out, None), w') /\
     decoded json_codec
       (map e_val
          (filter
             (matching (now (store world_v2))
                (watcherFormat (namespace (opts ms_registry)) "orders" ++ "*")%string)
             (entries (store world_v2))))
       out) /\
  (star_free (watcherFormat (namespace (opts ms_registry)) "orders") = true ->
   forall t e,
     matching t
       (watcherFormat (namespace (opts ms_registry)) "orders" ++ "*")%string e
     = live t e
       && String.prefix
            (watcherFormat (namespace (opts ms_registry)) "orders") (e_key e)).
Proof.
  assert (H1 : faults (store world_v2) = []) by reflexivity.
  assert (H2 : NoDup (map e_key (entries (store world_v2)))).
  { vm_compute. repeat constructor; cbn; intuition discriminate. }
  assert (H3 : forall x, In x (entries (store world_v2)) ->
             matching (now (store world_v2))
               (watcherFormat (namespace (opts ms_registry)) "orders" ++ "*")%string
               x = true ->
             exists y, UnmarshalFromString json_codec (e_val x) = Ok y).
  { intros x Hin _. vm_compute in Hin.
    destruct Hin as [<-|[<-|[]]]; eexists; vm_compute; reflexivity. }
  split; [exact H1|]. split; [exact H2|]. split; [exact H3|].
  exact (Next_returns_the_live_records json_codec ms_registry "orders"%string
           world_v2 H1 H2 H3).
Defined.

(** ** Deregister and the running goroutines *)

Section RuntimeFacts.

Context {St : Type}.
Variable client : Client St.

Lemma rstep_flags rt l rt' :
  rstep client rt l rt' ->
  ticker_stopped (rt_world rt') = ticker_stopped (rt_world rt) /\
  ctx_cancelled (rt_world rt') = ctx_cancelled (rt_world rt).
Proof.
  intros H. destruct H as [rt Hs|rt l1 t l2 wk Hr Hw]; cbn [rt_world].
  - split; reflexivity.
  - destruct wk as [cause| |]; cbn [renewal_step snd];
      try (split; reflexivity).
    destruct (register_keeps client (rn_key t) (rn_value t) (rn_ttl t)
                (rt_world rt)) as (Ht & Hc & _).
    split; assumption.
Qed.

(** Once the ticker is stopped it sends no more, and the goroutines
    between them make at most the one renewal of a tick that was already
    waiting. *)
Lemma rsteps_after_stop rt ls rt' :
  rsteps client rt ls rt' ->
  ticker_stopped (rt_world rt) = true ->
  sends ls = 0%nat /\
  (renewals ls <= if rt_tick rt then 1 else 0)%nat /\
  ticker_stopped (rt_world rt') = true /\
  ctx_cancelled (rt_world rt') = ctx_cancelled (rt_world rt).
Proof.
  induction 1 as [rt|rt l rt1 ls rt2 Hstep Hrest IH]; intros Hstop.
  - cbn. repeat split; [destruct (rt_tick rt); lia|exact Hstop].
  - destruct (rstep_flags _ _ _ Hstep) as [Ht Hc].
    rewrite Hstop in Ht. destruct (IH Ht) as (Hs & Hr & Ht2 & Hc2).
    rewrite Hc in Hc2.
    destruct Hstep as [rt Hgo|rt l1 t l2 wk Hrun Hready].
    + rewrite Hstop in Hgo. discriminate.
    + destruct wk as [cause| |]; cbn [sends renewals rt_tick] in *.
      * repeat split; assumption.
      * cbn [ready] in Hready. rewrite Hready.
        repeat split; try assumption. lia.
      * contradiction.
Qed.

(** Once the context is cancelled every running goroutine can return,
    and all of them can, without a further command to the store. *)
Lemma every_goroutine_can_return rt l1 t l2 :
  ctx_cancelled (rt_world rt) = true ->
  rt_running rt = l1 ++ t :: l2 ->
  rstep client rt (LWake t (WakeDone context_Canceled))
    (mkRuntime (rt_world rt) (rt_tick rt) (l1 ++ l2)).
Proof.
  intros Hc Hr.
  exact (rstep_wake client rt l1 t l2 (WakeDone context_Canceled) Hr
           (conj Hc eq_refl)).
Qed.

Lemma all_goroutines_can_return running :
  forall w tick,
    ctx_cancelled w = true ->
    exists ls,
      rsteps client (mkRuntime w tick running) ls (mkRuntime w tick []) /\
      renewals ls = 0%nat /\ sends ls = 0%nat.
Proof.
  induction running as [|t running IH]; intros w tick Hc.
  - exists []. split; [constructor|split; reflexivity].
  - destruct (IH w tick Hc) as (ls & Hrun & Hr & Hs).
    exists (LWake t (WakeDone context_Canceled) :: ls).
    split; [|split; assumption].
    eapply rsteps_cons; [|exact Hrun].
    exact (every_goroutine_can_return (mkRuntime w tick (t :: running))
             [] t running Hc eq_refl).
Qed.

End RuntimeFacts.

(** C6. Deregister stops the ticker, then cancels the context, then
    asks the store to delete the key made of the namespace, the Name and
    the ID joined by slashes, in that order and whatever the delete
    answers; it returns the delete's error.  The ticker and the context
    are the registry's own, shared by all its renewal goroutines: after
    Deregister, whichever goroutines are running and whether or not a
    tick is waiting in the ticker's channel, the ticker sends no more
    tick, the goroutines between them make at most the one renewal of a
    tick that was already waiting, every goroutine still running can
    return on the cancelled context, and all of them can do so without
    one more renewal. *)
Theorem Deregister_stops_cancels_deletes {St : Type} (client : Client St)
    r service w :
  let key :=
    (namespace (opts r) ++ "/" ++ Name service ++ "/" ++ ID service)%string in
  let out := Deregister client r service w in
  fst out = fst (cDel client key (store w)) /\
  store (snd out) = snd (cDel client key (store w)) /\
  trace (snd out)
  = trace w ++ [EvTickerStop; EvCancel; EvDel key (fst out)] /\
  ticker_stopped (snd out) = true /\
  ctx_cancelled (snd out) = true /\
  tasks (snd out) = tasks w /\
  forall tick running,
    (forall ls rt',
       rsteps client (mkRuntime (snd out) tick running) ls rt' ->
       sends ls = 0%nat /\
       (renewals ls <= if tick then 1 else 0)%nat /\
       forall l1 t l2,
         rt_running rt' = l1 ++ t :: l2 ->
         rstep client rt' (LWake t (WakeDone context_Canceled))
           (mkRuntime (rt_world rt') (rt_tick rt') (l1 ++ l2))) /\
    exists ls,
      rsteps client (mkRuntime (snd out) tick running) ls
        (mkRuntime (snd out) tick []) /\
      renewals ls = 0%nat.
Proof.
  cbv zeta.
  assert (E : fst (Deregister client r service w)
              = fst (cDel client
                       (namespace (opts r) ++ "/" ++ Name service ++ "/"
                        ++ ID service)%string (store w)) /\
              store (snd (Deregister client r service w))
              = snd (cDel client
                       (namespace (opts r) ++ "/" ++ Name service ++ "/"
                        ++ ID service)%string (store w)) /\
              trace (snd (Deregister client r service w))
              = trace w ++
                  [EvTickerStop; EvCancel;
                   EvDel (namespace (opts r) ++ "/" ++ Name service ++ "/"
                          ++ ID service)%string
                     (fst (Deregister client r service w))] /\
              ticker_stopped (snd (Deregister client r service w)) = true /\
              ctx_cancelled (snd (Deregister client r service w)) = true /\
              tasks (snd (Deregister client r service w)) = tasks w).
  { unfold Deregister, doDel, keyFormat. cbn [store trace].
    destruct (cDel client _ (store w)) as [err s1]. cbn.
    rewrite <- !app_assoc. cbn. auto 10. }
  destruct E as (E1 & E2 & E3 & Hstop & Hcancel & E6).
  do 6 (split; [assumption|]).
  intros tick running. split.
  - intros ls rt' Hrun.
    destruct (rsteps_after_stop client _ _ _ Hrun Hstop)
      as (Hs & Hr & _ & Hc).
    cbn [rt_world rt_tick] in *. rewrite Hcancel in Hc.
    split; [exact Hs|]. split; [exact Hr|].
    intros l1 t l2 Hl. apply every_goroutine_can_return; assumption.
  - destruct (all_goroutines_can_return client running _ tick Hcancel)
      as (ls & Hrun & Hr & _).
    exists ls. split; assumption.
Qed.

(** ** The enumeration: what a returned list is *)

(** C5 (counterexample). A store answers the second Scan with an empty
    batch and the cursor 9: the cycle is not over and the next Scan would
    have brought /ms/orders/i2.  The enumeration stops there and returns
    the list of i1 alone, with a nil error. *)
Lemma services_stops_at_an_empty_batch :
  services scripted_client json_codec 5 "/ms/orders"
    (init_world sparse_script)
  = Some (fst sparse_result, snd sparse_result) /\
  fst sparse_result = (Some [i1], None) /\
  map scan_summary (scan_log (trace (snd sparse_result)))
  = [(0%N, Some (1%nat, 5%N)); (5%N, Some (0%nat, 9%N))] /\
  store (snd sparse_result)
  = [ CanScan (Ok (["/ms/orders/i2"%string], 0%N));
      CanMGet (Ok [ReplyString (json_marshal i2)]) ].
Proof.
  repeat split; vm_compute; reflexivity.
Qed.

(** C5, as amended. Whatever the store and the codec, an enumeration
    that returns has followed the cursor from zero, each Scan at the
    cursor the one before returned, and has fetched each batch of keys
    with one MultiGet of those keys.  It returns either a list and a nil
    error, or a nil list and an error.  With a list, no command of the run
    failed, the last Scan returned an empty batch or the cursor zero, and
    the list is, in order, the decoding of every value that was present
    (a string) in every batch: a value that is missing or not a string is
    passed over and the run goes on, and the list is never cut short by
    an error.  With an error, either the last command issued is the one
    that failed, with that error, or the last command is a MultiGet that
    delivered a present value whose decoding failed with that error.  The
    list is the snapshot of the whole cycle only when the store returns
    its empty batch at the end of the cycle, as the reference store does:
    there the enumeration always returns, within one round per twenty
    entries and one more, and when no command fails and the live records
    under the pattern all decode, it returns a list that holds the
    instance of every live record under the pattern. *)
Theorem services_batches_or_error :
  (forall St (client : Client St) codec fuel key w r w',
     services client codec fuel key w = Some (r, w') ->
     exists evs,
       trace w' = trace w ++ evs /\
       scan_chain 0%N (scan_log evs) /\
       batches_fetched evs /\
       ((exists items,
           r = (Some items, None) /\
           Forall quiet evs /\
           last_scan_ends (scan_log evs) /\
           decoded codec (present_strings (mget_replies evs)) items)
        \/
        (exists err pre last,
           r = (None, Some err) /\
           evs = pre ++ [last] /\ Forall quiet pre /\
           (event_error last = Some err \/
            exists keys res str,
              last = EvMGet keys (Ok res) /\ In (ReplyString str) res /\
              UnmarshalFromString codec str = Err err)))) /\
  (forall codec key (w : World MemStore),
     exists r w',
       services mem_client codec (S (length (entries (store w)) / 20)) key w
       = Some (r, w')) /\
  (forall codec key (w : World MemStore),
     faults (store w) = [] ->
     (forall x, In x (entries (store w)) ->
                matching (now (store w)) (key ++ "*")%string x = true ->
                exists y, UnmarshalFromString codec (e_val x) = Ok y) ->
     exists out w',
       services mem_client codec (S (length (entries (store w)))) key w
       = Some ((Some out, None), w') /\
       forall e e' si,
         In e (entries (store w)) ->
         matching (now (store w)) (key ++ "*")%string e = true ->
         find_entry (now (store w)) (e_key e) (entries (store w)) = Some e' ->
         UnmarshalFromString codec (e_val e') = Ok si ->
         In si out).
Proof.
  split; [|split].
  - intros St client codec fuel key w r w' H.
    apply services_run in H. destruct H as (evs & T & Hrun).
    exists evs. split; [exact T|].
    destruct (enum_run_scans codec _ _ _ _ _ Hrun) as (_ & Hchain & Hlast).
    destruct (enum_run_batches codec _ _ _ _ _ Hrun) as [Hb _].
    split; [exact Hchain|]. split; [exact Hb|].
    destruct (enum_run_result codec _ _ _ _ _ Hrun) as [[out E]|[err E]].
    + left. exists out. pose proof (Hlast out E) as Hl.
      destruct (enum_run_success codec _ _ _ _ _ Hrun out E)
        as (Hq & more & -> & Hd).
      cbn [app] in *. auto.
    + right.
      destruct (enum_run_failure codec _ _ _ _ _ Hrun err E)
        as (pre & last & -> & Hq & Hl).
      exists err, pre, last. auto.
  - intros codec key w. unfold services.
    apply (mem_loop_returns codec _ _ 0%nat [] w).
    rewrite Nat.sub_0_r. apply Nat.mul_succ_div_gt. discriminate.
  - intros codec key w F Hdec. unfold services.
    destruct (mem_loop_total codec (S (length (entries (store w))))
                (key ++ "*")%string 0%nat [] w F Hdec)
      as (out & w' & E & _ & Hcov); [lia|].
    exists out, w'. split; [exact E|]. exact Hcov.
Qed.

Lemma services_batches_or_error_witness :
  services scripted_client json_codec 3 "/ms/orders" (init_world race_script)
  = Some (fst race_result, snd race_result) /\
  fst race_result = (Some [i1; i2], None) /\
  exists evs,
    trace (snd race_result) = trace (init_world race_script) ++ evs /\
    scan_chain 0%N (scan_log evs) /\
    batches_fetched evs /\
    ((exists items,
        fst race_result = (Some items, None) /\
        Forall quiet evs /\
        last_scan_ends (scan_log evs) /\
        decoded json_codec (present_strings (mget_replies evs)) items)
     \/
     (exists err pre last,
        fst race_result = (None, Some err) /\
        evs = pre ++ [last] /\ Forall quiet pre /\
        (event_error last = Some err \/
         exists keys res str,
           last = EvMGet keys (Ok res) /\ In (ReplyString str) res /\
           UnmarshalFromString json_codec str = Err err))).
Proof.
  assert (H : services scripted_client json_codec 3 "/ms/orders"
                (init_world race_script)
              = Some (fst race_result, snd race_result))
    by (vm_compute; reflexivity).
  split; [exact H|]. split; [vm_compute; reflexivity|].
  exact (proj1 services_batches_or_error _ scripted_client json_codec 3%nat
           "/ms/orders"%string (init_world race_script) _ _ H).
Defined.

(** ** New and its options *)





(** A tick was waiting when Deregister of orders/i1 returned: the
    goroutine takes it, renews, and returns on the cancelled context. *)
Lemma Deregister_stops_cancels_deletes_witness :
  exists rt',
    rsteps mem_client
      (mkRuntime (snd (Deregister mem_client ms_registry i1 registered_world))
         true [renew_i1])
      [LWake renew_i1 WakeTick; LWake renew_i1 (WakeDone context_Canceled)]
      rt' /\
    rt_running rt' = [] /\
    sends [LWake renew_i1 WakeTick; LWake renew_i1 (WakeDone context_Canceled)]
    = 0%nat /\
    (renewals
       [LWake renew_i1 WakeTick; LWake renew_i1 (WakeDone context_Canceled)]
     <= 1)%nat.
Proof.
  set (w0 := snd (Deregister mem_client ms_registry i1 registered_world)).
  set (rt0 := mkRuntime w0 true [renew_i1]).
  assert (S1 : rstep mem_client rt0 (LWake renew_i1 WakeTick)
                 (mkRuntime
                    (snd (renewal_step mem_client renew_i1 WakeTick w0))
                    false [renew_i1]))
    by exact (rstep_wake mem_client rt0 [] renew_i1 [] WakeTick
                eq_refl eq_refl).
  set (rt1 := mkRuntime (snd (renewal_step mem_client renew_i1 WakeTick w0))
                false [renew_i1]) in *.
  assert (S2 : rstep mem_client rt1 (LWake renew_i1 (WakeDone context_Canceled))
                 (mkRuntime (rt_world rt1) false []))
    by exact (rstep_wake mem_client rt1 [] renew_i1 []
                (WakeDone context_Canceled) eq_refl (conj eq_refl eq_refl)).
  assert (R : rsteps mem_client rt0
                [LWake renew_i1 WakeTick;
                 LWake renew_i1 (WakeDone context_Canceled)]
                (mkRuntime (rt_world rt1) false []))
    by exact (rsteps_cons mem_client _ _ _ _ _ S1
                (rsteps_cons mem_client _ _ _ _ _ S2
                   (rsteps_nil mem_client _))).
  exists (mkRuntime (rt_world rt1) false []).
  split; [exact R|]. split; [reflexivity|].
  destruct (proj1 (proj2 (proj2 (proj2 (proj2 (proj2 (proj2
              (Deregister_stops_cancels_deletes mem_client ms_registry i1
                 registered_world)))))) true [renew_i1]) _ _ R)
    as (Hs & Hr & _).
  split; [exact Hs|exact Hr].
Defined.
